(** * Graceful shutdown of an application hosting several HTTP servers

    A shallow embedding of [week1/pkg/service/shutdown.go]: the [App]
    orchestrator, its functional options, the [serverMux] decorator that
    answers 503 once a server rejects new requests, and the shutdown
    sequence with its goroutines, its [sync.WaitGroup] barriers, the
    second-signal listener and the [time.AfterFunc] hard deadline.

    Sequential code ([NewApp], [WithShutdownCallbacks], [rejectReq],
    [ServeHTTP]) is embedded as functions.  The concurrent part is a
    labelled transition system: [step a s] runs the next atomic piece of
    code of the thread named by the action [a], and is [None] when that
    thread is blocked or finished.  Every interleaving of the goroutines is
    a schedule, that is a list of actions, run by [exec]. *)

From Stdlib Require Import ZArith List String Ascii Lia Bool.
From stdpp Require Import base list strings.

(** ** Durations, errors, contexts *)

(** [time.Duration] is a count of nanoseconds. *)
Definition Duration := Z.
Definition Millisecond : Duration := 1000000%Z.
Definition Second : Duration := (1000 * Millisecond)%Z.

(** A Go [error] value, by its message; [None] is [nil]. *)
Definition error := string.

(** [context.Context] as the program builds it: [context.Background()] and
    [context.WithTimeout(parent, d)]. *)
Inductive Context :=
| Background
| WithTimeout (parent : Context) (timeout : Duration).

(** What calling a [ShutdownCallback] can do: return, panic, or never
    return.  The callback type has no result, so it cannot report an
    error. *)
Inductive CbOutcome := CbReturns | CbPanics | CbBlocks.

(** [type ShutdownCallback func(ctx context.Context)] *)
Abbreviation ShutdownCallback := (Context -> CbOutcome) (only parsing).

(** ** The HTTP server under a [Server]

    [stop] and [Start] call into [http.Server], of the Go library
    [net/http], which is not in the repository.  The part of it the
    shutdown sequence relies on is the set of connections being served and
    the result of closing the listener. *)

(** Modelled from the spec: a connection of an [http.Server] (missing: the
    library [net/http]).  It is idle, or it runs the handler of a request
    that was admitted earlier; [finishes] tells whether that handler ever
    returns. *)
Inductive Conn :=
| ConnIdle
| ConnActive (finishes : bool).

(** Modelled from the spec: the state of an [http.Server] (missing: the
    library [net/http]): its address, its connections, and what closing
    its listener returns. *)
Record HttpServer := mkHttpServer {
  Addr : string;
  conns : list Conn;
  lnerr : option error
}.

Definition is_idle (c : Conn) : bool :=
  match c with ConnIdle => true | ConnActive _ => false end.

(** Modelled from the spec: [http.Server.closeIdleConns] (missing: the
    library [net/http]) reports whether the server is quiescent, that is
    whether no connection is serving a request. *)
Definition closeIdleConns (srv : HttpServer) : bool :=
  forallb is_idle (conns srv).

Definition DeadlineExceeded : error := "context deadline exceeded".

(** Modelled from the spec: [http.Server.Shutdown(ctx)] (missing: the
    library [net/http]).  The spec has [stop] perform a graceful close that
    lets the requests already admitted complete, and return an error if the
    close does not complete cleanly; this is the contract the library
    documents for [Shutdown]: it interrupts no active connection, returns
    the error of closing the listener once every connection is idle, and
    returns the context's error if the context is done first.  One round of
    its polling loop: the result when it returns, [None] when it keeps
    waiting.  [context.Background()] is never done; a context with a
    timeout eventually is. *)
Definition Shutdown_poll (ctx : Context) (srv : HttpServer)
  : option (option error) :=
  if closeIdleConns srv then Some (lnerr srv)
  else match ctx with
       | Background => None
       | WithTimeout _ _ => Some (Some DeadlineExceeded)
       end.

(** ** Server and serverMux *)

(** [serverMux] decorates an [*http.ServeMux] with the [reject] flag.  The
    embedded mux is kept as the list of patterns registered on it. *)
Record serverMux := mkServerMux {
  reject : bool;
  ServeMux : list string
}.

Record Server := mkServer {
  srv : HttpServer;
  name : string;
  mux : serverMux
}.

(** [func NewServer(name string, addr string) *Server] *)
Definition NewServer (name addr : string) : Server :=
  {| srv := {| Addr := addr; conns := []; lnerr := None |};
     name := name;
     mux := {| reject := false; ServeMux := [] |} |}.

(** [func (s *Server) Handle(pattern string, handler http.Handler)] *)
Definition Handle (s : Server) (pattern : string) : Server :=
  {| srv := srv s; name := name s;
     mux := {| reject := reject (mux s);
               ServeMux := ServeMux (mux s) ++ [pattern] |} |}.

(** [func (s *Server) rejectReq()]: [s.mux.reject = true]. *)
Definition rejectReq (s : Server) : Server :=
  {| srv := srv s; name := name s;
     mux := {| reject := true; ServeMux := ServeMux (mux s) |} |}.

(** *** Serving a request *)

Record Request := mkRequest {
  Method : string;
  Path : string
}.

(** What a handler does with its [http.ResponseWriter] and with the
    embedded mux, in program order. *)
Inductive HandlerCall :=
| CWriteHeader (code : Z)
| CWrite (body : string)
| CDelegate (r : Request).   (* s.ServeMux.ServeHTTP(w, r) *)

Definition StatusServiceUnavailable : Z := 503%Z.

(** [func (s *serverMux) ServeHTTP(w http.ResponseWriter, r *http.Request)] *)
Definition ServeHTTP (s : serverMux) (r : Request) : list HandlerCall :=
  if reject s then
    [CWriteHeader StatusServiceUnavailable; CWrite "服务已关闭"]
  else
    [CDelegate r].

(** The response a fresh [http.ResponseWriter] ends up with.  The status is
    the one of the first [WriteHeader]; a [Write] before any [WriteHeader]
    sends 200; [None] when this handler decided nothing (the status is then
    up to the handler it delegated to).  The body is what was written, in
    order. *)
Definition response_status (cs : list HandlerCall) : option Z :=
  match cs with
  | CWriteHeader c :: _ => Some c
  | CWrite _ :: _ => Some 200%Z
  | _ => None
  end.

Fixpoint response_body (cs : list HandlerCall) : string :=
  match cs with
  | [] => ""
  | CWrite b :: rest => b +:+ response_body rest
  | _ :: rest => response_body rest
  end.

Definition delegated (cs : list HandlerCall) : bool :=
  existsb (fun c => match c with CDelegate _ => true | _ => false end) cs.

(** ** App and its options

    The registry holds servers built by [NewServer]: the [*Server] pointers
    are not nil and point to distinct servers. *)

Record App := mkApp {
  servers : list Server;
  shutdownTimeout : Duration;
  waitTime : Duration;
  cbTimeout : Duration;
  cbs : list ShutdownCallback
}.

(** [type Option func(app *App)] *)
Definition Option := App -> App.

(** [func WithShutdownCallbacks(cbs ...ShutdownCallback) Option]:
    [app.cbs = cbs]. *)
Definition WithShutdownCallbacks (cbs' : list ShutdownCallback) : Option :=
  fun app =>
    {| servers := servers app;
       shutdownTimeout := shutdownTimeout app;
       waitTime := waitTime app;
       cbTimeout := cbTimeout app;
       cbs := cbs' |}.

(** [func NewApp(servers []*Server, opts ...Option) *App] *)
Definition NewApp (servers : list Server) (opts : list Option) : App :=
  fold_left (fun app opt => opt app) opts
    {| servers := servers;
       shutdownTimeout := (30 * Second)%Z;
       waitTime := (10 * Second)%Z;
       cbTimeout := (3 * Second)%Z;
       cbs := [] |}.

(** ** The shutdown sequence as a transition system

    The threads of the program after [StartAndServe] has launched the
    servers: the main goroutine (the [select] at the end of
    [StartAndServe], then [shutdown] and [close]), the goroutine that
    waits for a second signal, the function armed by [time.AfterFunc], one
    goroutine per server in the Stop stage, one per callback in the
    Callbacks stage, and the handlers of the requests that were admitted
    before the shutdown began.  [signal.Notify] is called with the same
    arguments on linux, windows and darwin; the model is the program on
    one of these.  The goroutines that run [srv.Start()] take no part in
    the sequence (they log once [ListenAndServe] returns) and are left
    out. *)

(** What the program does that can be observed, in the order it happens. *)
Inductive Event :=
| ELog (msg : string)                       (* log.Println, log.Printf *)
| EReject (i : nat)                         (* s.rejectReq() on server i *)
| EDrainBegin (d : Duration)                (* time.Sleep(app.waitTime) starts *)
| EDrainEnd                                 (* ... and returns *)
| EStopCall (i : nat)                       (* srv.stop() is called *)
| EStopRet (i : nat) (err : option error)   (* ... and returns err *)
| ECbCall (j : nat) (ctx : Context)         (* cb(timeoutCtx) is called *)
| ECbRet (j : nat)                          (* ... and returns *)
| EReqDone (i k : nat)                      (* a handler admitted earlier returns *)
| ECloseBegin                               (* app.close() is called *)
| ECloseEnd                                 (* ... and returns *)
| EPanic                                    (* an unrecovered panic *)
| EExit (code : Z).                         (* os.Exit(code) *)

(** Where the main goroutine stands. *)
Inductive Pc :=
| PSelect              (* blocked in the select on signalChan *)
| PGoListener          (* about to start the second-signal goroutine *)
| PArmTimer            (* about to call time.AfterFunc *)
| PShutdown            (* about to call app.shutdown() *)
| PReject (i : nat)    (* in the loop that calls rejectReq, at server i *)
| PDrain               (* inside time.Sleep(app.waitTime) *)
| PStopSpawn (i : nat) (* in the loop that starts the stop goroutines; then wg.Wait() *)
| PCbSpawn (j : nat)   (* in the loop that starts the callbacks; then wg.Wait() *)
| PClose               (* inside app.close() *)
| PDone.               (* shutdown has returned *)

(** A goroutine started by one of the two fan-out loops: started, inside
    the call it makes ([srv.stop()] or [cb(ctx)]), back from it with
    [wg.Done()] still to run, finished. *)
Inductive GStat := GSpawned | GRunning | GReturned | GFinished.

(** The goroutine that waits for a second signal. *)
Inductive LStat := LNone | LWaiting.

(** The timer of [time.AfterFunc(app.shutdownTimeout, ...)]. *)
Inductive TStat := TNone | TArmed | TFired.

(** The process: running, or gone with an exit status. *)
Inductive Proc := Running | Exited (code : Z).

Record State := mkState {
  app : App;              (* the App; its servers are the shared Server objects *)
  pc : Pc;
  wg : Z;                 (* the counter of the sync.WaitGroup *)
  stops : list GStat;     (* goroutines of the Stop stage, by server index *)
  cbgs : list GStat;      (* goroutines of the Callbacks stage, by callback index *)
  sigbuf : bool;          (* signalChan, of capacity 1, holds a signal *)
  listener : LStat;
  timer : TStat;
  proc : Proc;
  trace : list Event
}.

Definition goto (p : Pc) (s : State) : State :=
  mkState (app s) p (wg s) (stops s) (cbgs s) (sigbuf s) (listener s)
          (timer s) (proc s) (trace s).
Definition emit (es : list Event) (s : State) : State :=
  mkState (app s) (pc s) (wg s) (stops s) (cbgs s) (sigbuf s) (listener s)
          (timer s) (proc s) (trace s ++ es).
Definition set_servers (l : list Server) (s : State) : State :=
  mkState (mkApp l (shutdownTimeout (app s)) (waitTime (app s))
                 (cbTimeout (app s)) (cbs (app s)))
          (pc s) (wg s) (stops s) (cbgs s) (sigbuf s) (listener s)
          (timer s) (proc s) (trace s).
Definition set_wg (n : Z) (s : State) : State :=
  mkState (app s) (pc s) n (stops s) (cbgs s) (sigbuf s) (listener s)
          (timer s) (proc s) (trace s).
Definition set_stops (l : list GStat) (s : State) : State :=
  mkState (app s) (pc s) (wg s) l (cbgs s) (sigbuf s) (listener s)
          (timer s) (proc s) (trace s).
Definition set_cbgs (l : list GStat) (s : State) : State :=
  mkState (app s) (pc s) (wg s) (stops s) l (sigbuf s) (listener s)
          (timer s) (proc s) (trace s).
Definition set_sigbuf (b : bool) (s : State) : State :=
  mkState (app s) (pc s) (wg s) (stops s) (cbgs s) b (listener s)
          (timer s) (proc s) (trace s).
Definition set_listener (l : LStat) (s : State) : State :=
  mkState (app s) (pc s) (wg s) (stops s) (cbgs s) (sigbuf s) l
          (timer s) (proc s) (trace s).
Definition set_timer (t : TStat) (s : State) : State :=
  mkState (app s) (pc s) (wg s) (stops s) (cbgs s) (sigbuf s) (listener s)
          t (proc s) (trace s).
Definition set_proc (p : Proc) (s : State) : State :=
  mkState (app s) (pc s) (wg s) (stops s) (cbgs s) (sigbuf s) (listener s)
          (timer s) p (trace s).

(** [os.Exit(code)] *)
Definition exit (code : Z) (s : State) : State :=
  set_proc (Exited code) (emit [EExit code] s).

(** A panic that nothing recovers: the Go runtime prints it and exits with
    status 2.  The program has no [recover]. *)
Definition crash (s : State) : State :=
  set_proc (Exited 2%Z) (emit [EPanic] s).

(** [wg.Done()]: the counter goes down by one; a negative counter
    panics. *)
Definition wgDone (s : State) : State :=
  if (wg s - 1 <? 0)%Z then crash s else set_wg (wg s - 1)%Z s.

(** [func (s *Server) stop() error]: the log line, then
    [s.srv.Shutdown(context.Background())]. *)
Definition stop_log (sv : Server) : Event :=
  ELog ("服务器" +:+ name sv +:+ "关闭中").
Definition stop (sv : Server) : option (option error) :=
  Shutdown_poll Background (srv sv).

(** A handler admitted earlier returns: its connection becomes idle. *)
Definition finish_conn (k : nat) (sv : Server) : Server :=
  {| srv := {| Addr := Addr (srv sv);
               conns := <[k := ConnIdle]> (conns (srv sv));
               lnerr := lnerr (srv sv) |};
     name := name sv; mux := mux sv |}.

(** The main goroutine runs [StartAndServe] from its [select], which calls
    [shutdown], which calls [close].  Each function below is one step of
    the main goroutine inside the function of the same name. *)

(** [func (app *App) close()] *)
Definition close (s : State) : option State :=
  match pc s with
  | PClose =>
      (* time.Sleep(time.Second); log.Println(...) *)
      Some (goto PDone (emit [ELog "应用关闭"; ECloseEnd] s))
  | _ => None
  end.

(** [func (app *App) shutdown()] *)
Definition shutdown (s : State) : option State :=
  match pc s with
  | PShutdown =>
      Some (goto (PReject 0) (emit [ELog "开始关闭应用，停止接收新请求"] s))
  | PReject i =>
      (* for _, s := range app.servers { s.rejectReq(); log.Println(...) } *)
      match servers (app s) !! i with
      | Some sv =>
          Some (goto (PReject (S i))
                 (emit [EReject i;
                        ELog ("已经禁止server " +:+ name sv +:+ "提供服务")]
                   (set_servers (<[i := rejectReq sv]> (servers (app s))) s)))
      | None =>
          (* log.Println(...); time.Sleep(app.waitTime) *)
          Some (goto PDrain
                 (emit [ELog "等待正在执行请求完结";
                        EDrainBegin (waitTime (app s))] s))
      end
  | PDrain =>
      (* the sleep is over; log.Println(...) *)
      Some (goto (PStopSpawn 0) (emit [EDrainEnd; ELog "开始关闭服务器"] s))
  | PStopSpawn i =>
      (* for _, s := range app.servers { wg.Add(1); go func(srv) {...}(s) } *)
      match servers (app s) !! i with
      | Some _ =>
          Some (goto (PStopSpawn (S i))
                 (set_stops (stops s ++ [GSpawned]) (set_wg (wg s + 1)%Z s)))
      | None =>
          (* wg.Wait(); log.Println(...) *)
          if (wg s =? 0)%Z
          then Some (goto (PCbSpawn 0) (emit [ELog "开始执行自定义回调"] s))
          else None
      end
  | PCbSpawn j =>
      (* for _, cb := range app.cbs { wg.Add(1); ...; go func(cb) {...}(cb) } *)
      match cbs (app s) !! j with
      | Some _ =>
          Some (goto (PCbSpawn (S j))
                 (set_cbgs (cbgs s ++ [GSpawned]) (set_wg (wg s + 1)%Z s)))
      | None =>
          (* wg.Wait(); log.Println(...); app.close() *)
          if (wg s =? 0)%Z
          then Some (goto PClose (emit [ELog "开始释放资源"; ECloseBegin] s))
          else None
      end
  | PClose => close s
  | _ => None
  end.

(** [func (app *App) StartAndServe()], from the [select] on. *)
Definition StartAndServe (s : State) : option State :=
  match pc s with
  | PSelect =>
      (* case <-signalChan: *)
      if sigbuf s then Some (goto PGoListener (set_sigbuf false s)) else None
  | PGoListener =>
      (* go func() { select { case <-signalChan: ... os.Exit(1) } }() *)
      Some (goto PArmTimer (set_listener LWaiting s))
  | PArmTimer =>
      (* time.AfterFunc(app.shutdownTimeout, func() { ... os.Exit(1) }) *)
      Some (goto PShutdown (set_timer TArmed s))
  | PDone => None
  | _ =>
      (* app.shutdown() *)
      shutdown s
  end.

(** The goroutine of the Stop stage for server [i]:
    [defer wg.Done(); srv.stop()].  The error [stop] returns is dropped. *)
Definition step_stop (i : nat) (s : State) : option State :=
  match stops s !! i, servers (app s) !! i with
  | Some GSpawned, Some sv =>
      Some (set_stops (<[i := GRunning]> (stops s))
             (emit [EStopCall i; stop_log sv] s))
  | Some GRunning, Some sv =>
      match stop sv with
      | Some err =>
          Some (set_stops (<[i := GReturned]> (stops s))
                 (emit [EStopRet i err] s))
      | None => None
      end
  | Some GReturned, _ =>
      Some (wgDone (set_stops (<[i := GFinished]> (stops s)) s))
  | _, _ => None
  end.

(** The context a callback gets:
    [context.WithTimeout(context.Background(), app.cbTimeout)]. *)
Definition timeoutCtx (a : App) : Context :=
  WithTimeout Background (cbTimeout a).

(** The goroutine of the Callbacks stage for callback [j]:
    [cb(timeoutCtx); wg.Done()]. *)
Definition step_cb (j : nat) (s : State) : option State :=
  match cbgs s !! j, cbs (app s) !! j with
  | Some GSpawned, Some _ =>
      Some (set_cbgs (<[j := GRunning]> (cbgs s))
             (emit [ECbCall j (timeoutCtx (app s))] s))
  | Some GRunning, Some cb =>
      match cb (timeoutCtx (app s)) with
      | CbReturns =>
          Some (set_cbgs (<[j := GReturned]> (cbgs s)) (emit [ECbRet j] s))
      | CbPanics => Some (crash s)
      | CbBlocks => None
      end
  | Some GReturned, _ =>
      Some (wgDone (set_cbgs (<[j := GFinished]> (cbgs s)) s))
  | _, _ => None
  end.

(** The handler of request [k] of server [i], admitted before the
    shutdown, returns. *)
Definition step_handler (i k : nat) (s : State) : option State :=
  match servers (app s) !! i with
  | Some sv =>
      match conns (srv sv) !! k with
      | Some (ConnActive true) =>
          Some (emit [EReqDone i k]
                 (set_servers (<[i := finish_conn k sv]> (servers (app s))) s))
      | _ => None
      end
  | None => None
  end.

(** The goroutine started on the first signal: on a second one it logs
    and calls [os.Exit(1)]. *)
Definition step_listener (s : State) : option State :=
  match listener s with
  | LWaiting =>
      if sigbuf s
      then Some (exit 1%Z (emit [ELog "二次强制退出触发"] (set_sigbuf false s)))
      else None
  | LNone => None
  end.

(** The function given to [time.AfterFunc]: it logs and calls
    [os.Exit(1)]. *)
Definition step_timerfunc (s : State) : option State :=
  match timer s with
  | TFired => Some (exit 1%Z (emit [ELog "最大限度超时, 强制退出触发"] s))
  | _ => None
  end.

Inductive Action :=
| ASignal               (* the OS delivers one of the notified signals *)
| ATimerFire            (* app.shutdownTimeout has elapsed since the timer was armed *)
| AMain
| AListener
| ATimerFunc
| AStop (i : nat)
| ACb (j : nat)
| AHandler (i k : nat).

(** One atomic step of the thread (or of the environment) named by [a];
    [None] when it cannot move.  Nothing moves once the process is gone. *)
Definition step (a : Action) (s : State) : option State :=
  match proc s with
  | Running =>
      match a with
      | ASignal =>
          (* signal.Notify sends without blocking: a signal that finds the
             buffer full is dropped *)
          Some (if sigbuf s then s else set_sigbuf true s)
      | ATimerFire =>
          match timer s with
          | TArmed => Some (set_timer TFired s)
          | _ => None
          end
      | AMain => StartAndServe s
      | AListener => step_listener s
      | ATimerFunc => step_timerfunc s
      | AStop i => step_stop i s
      | ACb j => step_cb j s
      | AHandler i k => step_handler i k s
      end
  | Exited _ => None
  end.

(** Running a schedule. *)
Fixpoint exec (sched : list Action) (s : State) : option State :=
  match sched with
  | [] => Some s
  | a :: rest =>
      match step a s with
      | Some s' => exec rest s'
      | None => None
      end
  end.

(** The state in which [StartAndServe] reaches its [select]. *)
Definition init (a : App) : State :=
  {| app := a; pc := PSelect; wg := 0%Z; stops := []; cbgs := [];
     sigbuf := false; listener := LNone; timer := TNone;
     proc := Running; trace := [] |}.

Inductive reachable (a : App) : State -> Prop :=
| reach_init : reachable a (init a)
| reach_step s act s' :
    reachable a s -> step act s = Some s' -> reachable a s'.

(** The steps of the program itself, as opposed to a further signal or
    the expiry of the hard deadline. *)
Definition internal (a : Action) : bool :=
  match a with
  | AMain | AStop _ | ACb _ | AHandler _ _ => true
  | ASignal | ATimerFire | AListener | ATimerFunc => false
  end.

(** A graceful run: the first signal, then steps of the program only. *)
Definition graceful (sched : list Action) : bool :=
  match sched with
  | ASignal :: rest => forallb internal rest
  | _ => false
  end.

(** No step of the program is possible. *)
Definition stuck (s : State) : Prop :=
  forall a, internal a = true -> step a s = None.

(** The same, computed: it is enough to try the main goroutine, the
    goroutines that exist and the connections that exist. *)
Definition candidates (s : State) : list Action :=
  AMain
  :: map AStop (seq 0 (length (stops s)))
  ++ map ACb (seq 0 (length (cbgs s)))
  ++ flat_map (fun i =>
       match servers (app s) !! i with
       | Some sv => map (AHandler i) (seq 0 (length (conns (srv sv))))
       | None => []
       end) (seq 0 (length (servers (app s)))).

Definition stuckb (s : State) : bool :=
  forallb (fun a => match step a s with Some _ => false | None => true end)
          (candidates s).

(** ** Measures and observations on states *)

(** The stage the main goroutine is in. *)
Definition phase (p : Pc) : nat :=
  match p with
  | PSelect => 0 | PGoListener => 1 | PArmTimer => 2 | PShutdown => 3
  | PReject _ => 4 | PDrain => 5 | PStopSpawn _ => 6 | PCbSpawn _ => 7
  | PClose => 8 | PDone => 9
  end.

(** A bound on the steps the program can still make. *)
Definition gweight (g : GStat) : nat :=
  match g with GSpawned => 3 | GRunning => 2 | GReturned => 1 | GFinished => 0 end.

Definition cweight (c : Conn) : nat :=
  match c with ConnActive _ => 1 | ConnIdle => 0 end.

Definition sweight (sv : Server) : nat :=
  sum_list_with cweight (conns (srv sv)).

Definition pcweight (N M : nat) (p : Pc) : nat :=
  match p with
  | PSelect => 5 * N + 4 * M + 9
  | PGoListener => 5 * N + 4 * M + 8
  | PArmTimer => 5 * N + 4 * M + 7
  | PShutdown => 5 * N + 4 * M + 6
  | PReject i => (N - i) + 4 * N + 4 * M + 5
  | PDrain => 4 * N + 4 * M + 4
  | PStopSpawn i => 4 * (N - i) + 4 * M + 3
  | PCbSpawn j => 4 * (M - j) + 2
  | PClose => 1
  | PDone => 0
  end.

Definition measure (s : State) : nat :=
  pcweight (length (servers (app s))) (length (cbs (app s))) (pc s)
  + sum_list_with gweight (stops s)
  + sum_list_with gweight (cbgs s)
  + sum_list_with sweight (servers (app s))
  + match proc s with Running => 1 | Exited _ => 0 end.

(** The goroutines of a fan-out that have not run their [wg.Done()]. *)
Definition pending (l : list GStat) : nat :=
  sum_list_with (fun g => match g with GFinished => 0 | _ => 1 end) l.

(** The lines the program logged. *)
Definition logs (t : list Event) : list string :=
  omap (fun e => match e with ELog m => Some m | _ => None end) t.

(** The servers [rejectReq] was called on, in the order of the calls. *)
Definition rejects (t : list Event) : list nat :=
  omap (fun e => match e with EReject i => Some i | _ => None end) t.

(** A log line mentions an error when the error's message occurs in it. *)
Definition mentions (e : error) (line : string) : bool :=
  match String.index 0 e line with Some _ => true | None => false end.

(** Request [k] of server [i] is being handled when the shutdown begins. *)
Definition in_flight (a : App) (i k : nat) : Prop :=
  exists sv b, servers a !! i = Some sv /\ conns (srv sv) !! k = Some (ConnActive b).

(** Every request being handled when the shutdown begins returns at some
    point. *)
Definition requests_finish (a : App) : bool :=
  forallb (fun sv =>
    forallb (fun c => match c with ConnActive false => false | _ => true end)
            (conns (srv sv))) (servers a).

(** Every callback returns; no callback panics. *)
Definition callbacks_return (a : App) : bool :=
  forallb (fun cb : ShutdownCallback =>
    match cb (timeoutCtx a) with CbReturns => true | _ => false end) (cbs a).

Definition no_callback_panics (a : App) : bool :=
  forallb (fun cb : ShutdownCallback =>
    match cb (timeoutCtx a) with CbPanics => false | _ => true end) (cbs a).

(** Forgetting what the [stop] calls return: the close error of every
    listener, and the error of every [EStopRet]. *)
Definition forget_sv (sv : Server) : Server :=
  {| srv := {| Addr := Addr (srv sv); conns := conns (srv sv); lnerr := None |};
     name := name sv; mux := mux sv |}.

Definition forget_app (a : App) : App :=
  mkApp (map forget_sv (servers a)) (shutdownTimeout a) (waitTime a)
        (cbTimeout a) (cbs a).

Definition forget_ev (e : Event) : Event :=
  match e with EStopRet i _ => EStopRet i None | _ => e end.

Definition forget (s : State) : State :=
  mkState (forget_app (app s)) (pc s) (wg s) (stops s) (cbgs s) (sigbuf s)
          (listener s) (timer s) (proc s) (map forget_ev (trace s)).

(** ** Invariants of the reachable states *)

(** The configuration never changes, nor does the number of servers. *)
Definition cfg_inv (a : App) (s : State) : Prop :=
  cbs (app s) = cbs a /\ waitTime (app s) = waitTime a /\
  cbTimeout (app s) = cbTimeout a /\
  shutdownTimeout (app s) = shutdownTimeout a /\
  length (servers (app s)) = length (servers a).

(** The two fan-outs and the [sync.WaitGroup]: how many goroutines each
    loop has started, and the counter, which is the number of goroutines
    that have not run their [wg.Done()].  Past a barrier, none is left. *)
Definition counts_inv (s : State) : Prop :=
  let N := length (servers (app s)) in
  let M := length (cbs (app s)) in
  length (stops s) <= N /\ length (cbgs s) <= M /\
  (forall i, pc s = PStopSpawn i -> length (stops s) = i) /\
  (phase (pc s) < 6 -> length (stops s) = 0) /\
  (phase (pc s) > 6 -> length (stops s) = N) /\
  (forall j, pc s = PCbSpawn j -> length (cbgs s) = j) /\
  (phase (pc s) < 7 -> length (cbgs s) = 0) /\
  (phase (pc s) > 7 -> length (cbgs s) = M) /\
  wg s = Z.of_nat (pending (stops s) + pending (cbgs s)) /\
  (phase (pc s) > 6 -> pending (stops s) = 0) /\
  (phase (pc s) > 7 -> pending (cbgs s) = 0).

(** The Reject stage: [rejectReq] has been called on the servers below the
    loop index, in order, and a server it was called on has its flag
    set. *)
Definition rejects_inv (s : State) : Prop :=
  (forall i, pc s = PReject i ->
     rejects (trace s) = seq 0 i /\ i <= length (servers (app s))) /\
  (phase (pc s) < 4 -> rejects (trace s) = []) /\
  (phase (pc s) > 4 -> rejects (trace s) = seq 0 (length (servers (app s)))) /\
  (forall i, In (EReject i) (trace s) ->
     exists sv, servers (app s) !! i = Some sv /\ reject (mux sv) = true).

(** The connections of every server, and one connection. *)
Definition ctab (a : App) : list (list Conn) :=
  map (fun sv => conns (srv sv)) (servers a).

Definition cell (t : list (list Conn)) (i k : nat) : option Conn :=
  match t !! i with Some cs => cs !! k | None => None end.

Definition no_reqdone (es : list Event) : Prop :=
  forall i k, ~ In (EReqDone i k) es.

(** A connection is as it was when the shutdown began, unless its handler has
    returned, which only a handler that finishes does. *)
Definition conns_inv (a : App) (s : State) : Prop :=
  (forall i k,
     cell (ctab (app s)) i k = cell (ctab a) i k
     \/ (cell (ctab (app s)) i k = Some ConnIdle /\
         cell (ctab a) i k = Some (ConnActive true) /\
         In (EReqDone i k) (trace s))) /\
  (forall i k, In (EReqDone i k) (trace s) ->
     cell (ctab a) i k = Some (ConnActive true)).

(** What the trace holds once the program has come to a given point. *)
Definition facts_inv (s : State) : Prop :=
  (phase (pc s) > 4 -> In (EDrainBegin (waitTime (app s))) (trace s)) /\
  (phase (pc s) > 5 -> In EDrainEnd (trace s)) /\
  (forall i g, stops s !! i = Some g -> g = GReturned \/ g = GFinished ->
     exists err, In (EStopRet i err) (trace s)) /\
  (forall j g, cbgs s !! j = Some g -> g <> GSpawned ->
     In (ECbCall j (timeoutCtx (app s))) (trace s)) /\
  (forall j g, cbgs s !! j = Some g -> g = GReturned \/ g = GFinished ->
     In (ECbRet j) (trace s)) /\
  (phase (pc s) > 7 -> In ECloseBegin (trace s)) /\
  (phase (pc s) > 8 -> In ECloseEnd (trace s)).

(** Only a callback that returns is seen returning. *)
Definition cbret_inv (s : State) : Prop :=
  forall j, In (ECbRet j) (trace s) ->
    exists cb, cbs (app s) !! j = Some cb /\ cb (timeoutCtx (app s)) = CbReturns.

(** In trace [t], every event recognised by [Q] comes after a prefix
    satisfying [R]. *)
Definition guarded (Q : Event -> bool) (R : list Event -> Prop)
    (t : list Event) : Prop :=
  forall t1 e t2, t = t1 ++ e :: t2 -> Q e = true -> R t1.

Definition is_drain_begin (e : Event) : bool :=
  match e with EDrainBegin _ => true | _ => false end.

Definition is_drain_end (e : Event) : bool :=
  match e with EDrainEnd => true | _ => false end.

Definition is_stop_call (e : Event) : bool :=
  match e with EStopCall _ => true | _ => false end.

Definition is_stop_ret (i : nat) (e : Event) : bool :=
  match e with EStopRet i' _ => Nat.eqb i' i | _ => false end.

Definition is_cb_call (e : Event) : bool :=
  match e with ECbCall _ _ => true | _ => false end.

Definition is_close_begin (e : Event) : bool :=
  match e with ECloseBegin => true | _ => false end.

(** The order of the stages, as a property of every prefix of the trace. *)
Definition order_inv (a : App) (s : State) : Prop :=
  guarded is_drain_begin
    (fun t1 => forall i, i < length (servers a) -> In (EReject i) t1) (trace s) /\
  (forall d, In (EDrainBegin d) (trace s) -> d = waitTime a) /\
  guarded is_drain_end (fun t1 => In (EDrainBegin (waitTime a)) t1) (trace s) /\
  guarded is_stop_call (fun t1 => In EDrainEnd t1) (trace s) /\
  guarded is_cb_call
    (fun t1 => forall i, i < length (servers a) -> exists err, In (EStopRet i err) t1)
    (trace s) /\
  guarded is_close_begin
    (fun t1 => forall j, j < length (cbs a) -> In (ECbRet j) t1) (trace s) /\
  (forall i, guarded (is_stop_ret i)
    (fun t1 => forall k, in_flight a i k -> In (EReqDone i k) t1) (trace s)).

(** The second-signal goroutine and the timer are in place as soon as the
    main goroutine has passed the two statements that set them up. *)
Definition watchdog_inv (s : State) : Prop :=
  (phase (pc s) > 1 -> listener s = LWaiting) /\
  (phase (pc s) > 2 -> timer s = TArmed \/ timer s = TFired).

Definition timer_inv (s : State) : Prop :=
  phase (pc s) <= 2 -> timer s = TNone.

(** In a graceful run the process is running, the timer has not fired and
    no second signal is pending. *)
Definition live_inv (s : State) : Prop :=
  proc s = Running /\ timer s <> TFired /\
  (pc s = PSelect -> sigbuf s = true) /\
  (phase (pc s) > 0 -> sigbuf s = false).

(** ** Further observations and invariants *)

(** [s.Handle(p, h)] for each pattern of [pats], in order. *)
Definition register (pats : list string) (sv : Server) : Server :=
  fold_left Handle pats sv.

(** Nothing of the shutdown sequence has begun: the main goroutine is at
    its [select], no goroutine of the shutdown exists, no server has been
    told to reject, and only handlers have returned. *)
Definition quiet (a : App) (s : State) : Prop :=
  pc s = PSelect /\ proc s = Running /\ sigbuf s = false /\
  listener s = LNone /\ timer s = TNone /\ wg s = 0%Z /\
  stops s = [] /\ cbgs s = [] /\
  map mux (servers (app s)) = map mux (servers a) /\
  (forall e, In e (trace s) -> exists i k, e = EReqDone i k).

(** How the process can have ended: by [os.Exit(1)], or by the panic of a
    callback. *)
Definition exit_inv (s : State) : Prop :=
  (In EPanic (trace s) ->
     exists j cb, cbs (app s) !! j = Some cb /\ cb (timeoutCtx (app s)) = CbPanics) /\
  (forall c, In (EExit c) (trace s) -> c = 1%Z) /\
  match proc s with
  | Running => ~ In EPanic (trace s) /\ forall c, ~ In (EExit c) (trace s)
  | Exited c =>
      (c = 1%Z /\ In (EExit 1) (trace s) /\ ~ In EPanic (trace s)) \/
      (c = 2%Z /\ In EPanic (trace s) /\ forall c', ~ In (EExit c') (trace s))
  end.

(** The servers whose [stop] was called, and those whose [stop] returned;
    the callbacks that were called, and those that returned; in the order
    of the trace. *)
Definition stop_calls (t : list Event) : list nat :=
  omap (fun e => match e with EStopCall i => Some i | _ => None end) t.
Definition stop_rets (t : list Event) : list nat :=
  omap (fun e => match e with EStopRet i _ => Some i | _ => None end) t.
Definition cb_calls (t : list Event) : list nat :=
  omap (fun e => match e with ECbCall j _ => Some j | _ => None end) t.
Definition cb_rets (t : list Event) : list nat :=
  omap (fun e => match e with ECbRet j => Some j | _ => None end) t.

Definition is_close_end (e : Event) : bool :=
  match e with ECloseEnd => true | _ => false end.

Definition is_cb_ret (j : nat) (e : Event) : bool :=
  match e with ECbRet j' => Nat.eqb j' j | _ => false end.

(** A goroutine that has made its call, and one whose call has returned. *)
Definition ran (g : GStat) : Prop := g <> GSpawned.
Definition back (g : GStat) : Prop := g = GReturned \/ g = GFinished.

(** Each goroutine of a fan-out makes its call once and sees it return
    once. *)
Definition once_inv (calls rets : list nat) (gs : list GStat) : Prop :=
  NoDup calls /\
  (forall i, In i calls -> exists g, gs !! i = Some g /\ g <> GSpawned) /\
  NoDup rets /\
  (forall i, In i rets -> gs !! i = Some GReturned \/ gs !! i = Some GFinished).

(** The Drain sleep and [close] begin once and end once, and not before the
    main goroutine has come to them. *)
Definition stages_once_inv (s : State) : Prop :=
  (phase (pc s) <= 4 -> filter is_drain_begin (trace s) = []) /\
  length (filter is_drain_begin (trace s)) <= 1 /\
  (phase (pc s) <= 5 -> filter is_drain_end (trace s) = []) /\
  length (filter is_drain_end (trace s)) <= 1 /\
  (phase (pc s) <= 7 -> filter is_close_begin (trace s) = []) /\
  length (filter is_close_begin (trace s)) <= 1 /\
  (phase (pc s) <= 8 -> filter is_close_end (trace s) = []) /\
  length (filter is_close_end (trace s)) <= 1.

(** A goroutine past its call has the call in the trace; a return comes
    after its call; a call is one a started goroutine made, with the context
    the loop built. *)
Definition pairs_inv (s : State) : Prop :=
  (forall i g, stops s !! i = Some g -> g <> GSpawned ->
     In (EStopCall i) (trace s)) /\
  (forall j g, cbgs s !! j = Some g -> g <> GSpawned ->
     In (ECbCall j (timeoutCtx (app s))) (trace s)) /\
  (phase (pc s) > 8 -> In ECloseBegin (trace s)) /\
  (pc s = PClose -> In ECloseBegin (trace s)) /\
  (forall i, guarded (is_stop_ret i) (fun t1 => In (EStopCall i) t1) (trace s)) /\
  (forall j, guarded (is_cb_ret j)
     (fun t1 => In (ECbCall j (timeoutCtx (app s))) t1) (trace s)) /\
  guarded is_close_end (fun t1 => In ECloseBegin t1) (trace s) /\
  (forall j ctx, In (ECbCall j ctx) (trace s) ->
     ctx = timeoutCtx (app s) /\ j < length (cbgs s)) /\
  (forall i, In (EStopCall i) (trace s) -> i < length (stops s)).

(** What the shutdown leaves of a server as it was: its name, its address,
    the result of closing its listener, the patterns registered on its mux
    and the number of its connections. *)
Definition same_server (sv0 sv : Server) : Prop :=
  name sv = name sv0 /\ Addr (srv sv) = Addr (srv sv0) /\
  lnerr (srv sv) = lnerr (srv sv0) /\
  ServeMux (mux sv) = ServeMux (mux sv0) /\
  length (conns (srv sv)) = length (conns (srv sv0)).

(** Server [i], which was [sv0], is [sv] after the events of [t]: the same
    but for its connections and for a flag set by [rejectReq]. *)
Definition kept (i : nat) (sv0 sv : Server) (t : list Event) : Prop :=
  same_server sv0 sv /\
  (reject (mux sv) = reject (mux sv0) \/
   (reject (mux sv) = true /\ In (EReject i) t)).

(** The registry holds the servers it held, in the same places; the error a
    [stop] returned is the one of closing the listener. *)
Definition frame_inv (a : App) (s : State) : Prop :=
  (forall i sv0, servers a !! i = Some sv0 ->
     exists sv, servers (app s) !! i = Some sv /\ kept i sv0 sv (trace s)) /\
  (forall i err, In (EStopRet i err) (trace s) ->
     exists sv0, servers a !! i = Some sv0 /\ err = lnerr (srv sv0)).

(** [log.Println("已经禁止server " + srv.name + "提供服务")] *)
Definition reject_log (sv : Server) : Event :=
  ELog ("已经禁止server " +:+ name sv +:+ "提供服务").

(** The log line of a [rejectReq] and the one of a [stop] carry the name of
    the server the call was made on. *)
Definition logs_inv (a : App) (s : State) : Prop :=
  (forall i, In (EReject i) (trace s) ->
     exists sv0, servers a !! i = Some sv0 /\ In (reject_log sv0) (trace s)) /\
  (forall i, In (EStopCall i) (trace s) ->
     exists sv0, servers a !! i = Some sv0 /\ In (stop_log sv0) (trace s)).

(** The goroutine that waits for a second signal, the timer and the
    goroutines of the two fan-outs exist only once the main goroutine has
    come to the statements that start them; the process ends only after the
    first signal has been received. *)
Definition early_inv (s : State) : Prop :=
  (listener s = LWaiting -> 2 <= phase (pc s)) /\
  (timer s <> TNone -> 3 <= phase (pc s)) /\
  (0 < length (stops s) -> 6 <= phase (pc s)) /\
  (0 < length (cbgs s) -> 7 <= phase (pc s)) /\
  (proc s <> Running -> 2 <= phase (pc s)).

(** ** The properties proved below *)

(** The five stages in order, each behind the barrier of the one before:
    [rejectReq] on the servers in registry order; the Drain sleep, for
    [waitTime], after every [rejectReq]; every [stop] call after the sleep;
    every callback after every [stop] has returned; [close] after every
    callback has returned. *)
Definition stage_order (a : App) (t : list Event) : Prop :=
  (exists n, n <= length (servers a) /\ rejects t = seq 0 n) /\
  (forall t1 d t2, t = t1 ++ EDrainBegin d :: t2 ->
     d = waitTime a /\ forall i, i < length (servers a) -> In (EReject i) t1) /\
  (forall t1 t2, t = t1 ++ EDrainEnd :: t2 -> In (EDrainBegin (waitTime a)) t1) /\
  (forall t1 i t2, t = t1 ++ EStopCall i :: t2 -> In EDrainEnd t1) /\
  (forall t1 j ctx t2, t = t1 ++ ECbCall j ctx :: t2 ->
     forall i, i < length (servers a) -> exists err, In (EStopRet i err) t1) /\
  (forall t1 t2, t = t1 ++ ECloseBegin :: t2 ->
     forall j, j < length (cbs a) -> In (ECbRet j) t1).

(** A second signal arrives and its goroutine runs; when the signal comes
    before the [go] statement that starts the goroutine, that statement runs
    first. *)
Definition second_signal_sched (s : State) : list Action :=
  ASignal :: match pc s with PGoListener => [AMain] | _ => [] end ++ [AListener].

(** The hard deadline expires and its function runs; when the main goroutine
    has not armed the timer yet, it does so first. *)
Definition deadline_sched (s : State) : list Action :=
  match pc s with PGoListener => [AMain; AMain] | PArmTimer => [AMain] | _ => [] end
  ++ match timer s with TFired => [] | _ => [ATimerFire] end
  ++ [ATimerFunc].

(** The process is gone with status 1, the log line and the exit are all that
    happened since [s], and nothing can happen any more. *)
Definition forced (line : string) (s s' : State) : Prop :=
  proc s' = Exited 1 /\
  trace s' = trace s ++ [ELog line; EExit 1] /\
  forall act, step act s' = None.

(** A 503 with the body the source writes, without the registered handlers. *)
Definition unavailable_response (cs : list HandlerCall) : Prop :=
  cs = [CWriteHeader 503; CWrite "服务已关闭"] /\
  response_status cs = Some 503%Z /\
  response_body cs = "服务已关闭" /\
  String.length (response_body cs) = 15 /\
  delegated cs = false.

(** Request [k] of server [i] is still being handled in state [s]. *)
Definition still_running (s : State) (i k : nat) : Prop :=
  exists sv b, servers (app s) !! i = Some sv /\
               conns (srv sv) !! k = Some (ConnActive b).

(** The specification's reading of the Stop stage: a request still running
    when the Drain sleep is over is cut off, that is [stop] returns without
    the request's handler having returned. *)
Definition stop_cuts_off_requests : Prop :=
  forall a sched s i k,
    exec sched (init a) = Some s ->
    In EDrainEnd (trace s) -> still_running s i k ->
    exists sched' s' err,
      exec sched' s = Some s' /\
      In (EStopRet i err) (trace s') /\ ~ In (EReqDone i k) (trace s').

(** What the code does: [stop] returns only after every request in flight
    has returned by itself; only a handler that finishes is seen returning;
    with a handler that never returns, [stop] never returns and no callback
    is ever called. *)
Definition stop_waits (a : App) (t : list Event) : Prop :=
  (forall t1 i err t2, t = t1 ++ EStopRet i err :: t2 ->
     forall k, in_flight a i k -> In (EReqDone i k) t1) /\
  (forall i k, In (EReqDone i k) t ->
     exists sv, servers a !! i = Some sv /\
                conns (srv sv) !! k = Some (ConnActive true)) /\
  (forall i sv k, servers a !! i = Some sv ->
     conns (srv sv) !! k = Some (ConnActive false) ->
     (forall err, ~ In (EStopRet i err) t) /\
     (forall j ctx, ~ In (ECbCall j ctx) t)).

Definition all_stages_done (a : App) (t : list Event) : Prop :=
  (forall i, i < length (servers a) -> In (EReject i) t) /\
  In (EDrainBegin (waitTime a)) t /\ In EDrainEnd t /\
  (forall i, i < length (servers a) -> exists err, In (EStopRet i err) t) /\
  (forall j, j < length (cbs a) ->
     In (ECbCall j (timeoutCtx a)) t /\ In (ECbRet j) t) /\
  In ECloseBegin t /\ In ECloseEnd t.

(** The specification's reading of error handling in the Stop stage: a run
    ends with [shutdown] done, and an error that a [stop] returned is
    mentioned by some log line.  ([shutdown] returns nothing and [App] has
    no field for errors, so the log is the only place for them.) *)
Definition stop_errors_are_logged : Prop :=
  forall a sched s,
    requests_finish a = true -> callbacks_return a = true ->
    graceful sched = true -> exec sched (init a) = Some s -> stuck s ->
    pc s = PDone /\
    forall i e, In (EStopRet i (Some e)) (trace s) ->
      exists line, In line (logs (trace s)) /\ mentions e line = true.

(** A graceful run is finite; it can be continued to the end of [shutdown],
    all five stages done; when nothing is left to do it is there already;
    and it goes the same way, log lines included, whatever the [stop] calls
    return. *)
Definition runs_all_stages (a : App) (sched : list Action) (s : State) : Prop :=
  length sched <= S (measure (init a)) /\
  (exists sched' s',
     forallb internal sched' = true /\ exec sched' s = Some s' /\
     pc s' = PDone /\ proc s' = Running /\ all_stages_done a (trace s')) /\
  (stuck s -> pc s = PDone /\ proc s = Running /\ all_stages_done a (trace s)) /\
  (forall a', forget_app a' = forget_app a ->
     exists s', exec sched (init a') = Some s' /\
                pc s' = pc s /\ proc s' = proc s /\
                logs (trace s') = logs (trace s)).

(** The specification's reading of callback failures: whatever the other
    callbacks do, a callback that returns is called and has returned when
    the run is over. *)
Definition callback_failures_are_isolated : Prop :=
  forall a sched s,
    requests_finish a = true -> graceful sched = true ->
    exec sched (init a) = Some s -> stuck s ->
    forall j cb, cbs a !! j = Some cb -> cb (timeoutCtx a) = CbReturns ->
      In (ECbCall j (timeoutCtx a)) (trace s) /\ In (ECbRet j) (trace s).

(** Every callback is called, every callback that returns has returned,
    and [close] is not called unless every callback returns. *)
Definition callbacks_invoked_and_awaited (a : App) (t : list Event) : Prop :=
  (forall j cb, cbs a !! j = Some cb ->
     In (ECbCall j (timeoutCtx a)) t /\
     (cb (timeoutCtx a) = CbReturns -> In (ECbRet j) t)) /\
  (In ECloseBegin t ->
     forall j cb, cbs a !! j = Some cb -> cb (timeoutCtx a) = CbReturns).

(** The [App] that [NewApp] starts from, with the durations in nanoseconds. *)
Definition defaults (servers : list Server) : App :=
  {| servers := servers;
     shutdownTimeout := 30000000000%Z;
     waitTime := 10000000000%Z;
     cbTimeout := 3000000000%Z;
     cbs := [] |}.

(** ** Example runs *)

Definition run (sched : list Action) (a : App) : State :=
  match exec sched (init a) with Some s => s | None => init a end.

(** A server that is handling a request, and whose listener fails to close. *)
Definition api : Server :=
  {| srv := {| Addr := ":8080"; conns := [ConnActive true; ConnIdle];
               lnerr := Some "close tcp :8080: use of closed network connection" |};
     name := "api";
     mux := {| reject := false; ServeMux := ["/"] |} |}.

Definition admin : Server := Handle (NewServer "admin" ":8081") "/health".

Definition demo_app : App :=
  NewApp [api; admin]
    [WithShutdownCallbacks [fun _ => CbReturns; fun _ => CbReturns]].

(** A complete graceful run of [demo_app]. *)
Definition demo_sched : list Action :=
  ASignal :: replicate 10 AMain
  ++ [AStop 0; AStop 1; AStop 1; AHandler 0 0; AStop 0; AStop 1; AStop 0]
  ++ replicate 3 AMain
  ++ [ACb 1; ACb 0; ACb 0; ACb 1; ACb 0; ACb 1]
  ++ replicate 2 AMain.

Definition demo_final : State := run demo_sched demo_app.

(** The same run, up to the end of the Drain sleep. *)
Definition drained_sched : list Action := ASignal :: replicate 8 AMain.

Definition drained : State := run drained_sched demo_app.

(** A server with a request whose handler never returns. *)
Definition stalled_app : App :=
  NewApp [{| srv := {| Addr := ":8080"; conns := [ConnActive false]; lnerr := None |};
             name := "api"; mux := {| reject := false; ServeMux := ["/"] |} |}] [].

Definition stalled_sched : list Action := ASignal :: replicate 8 AMain ++ [AStop 0].

Definition stalled : State := run stalled_sched stalled_app.

(** A callback that never returns, and one that does. *)
Definition patient_app : App :=
  NewApp [admin] [WithShutdownCallbacks [fun _ => CbBlocks; fun _ => CbReturns]].

Definition patient_sched : list Action :=
  ASignal :: replicate 8 AMain ++ replicate 3 (AStop 0) ++ replicate 3 AMain
  ++ [ACb 0; ACb 1; ACb 1; ACb 1].

Definition patient : State := run patient_sched patient_app.

(** A callback that panics, and one that returns. *)
Definition panicky_app : App :=
  NewApp [admin] [WithShutdownCallbacks [fun _ => CbPanics; fun _ => CbReturns]].

Definition panicky_sched : list Action :=
  ASignal :: replicate 8 AMain ++ replicate 3 (AStop 0) ++ replicate 2 AMain
  ++ [ACb 0; ACb 0].

Definition panicky : State := run panicky_sched panicky_app.

(** A request of [api] returns while no signal has come. *)
Definition idle_sched : list Action := [AHandler 0 0].

Definition idle : State := run idle_sched demo_app.

(** The first signal has been received, and nothing else has happened. *)
Definition received_sched : list Action := [ASignal; AMain].

Definition received : State := run received_sched demo_app.

(** * Proofs *)

(** ** Tactics *)

Ltac sproj :=
  cbn [app pc wg stops cbgs sigbuf listener timer proc trace
       goto emit set_servers set_wg set_stops set_cbgs set_sigbuf
       set_listener set_timer set_proc exit crash
       servers shutdownTimeout waitTime cbTimeout cbs phase] in *.

Ltac step_inv H :=
  unfold step, StartAndServe, shutdown, close, step_stop, step_cb, step_handler,
         step_listener, step_timerfunc, wgDone in H;
  sproj; repeat (case_match; sproj); simplify_eq; sproj.

Ltac use_guards :=
  repeat match goal with
  | H : ?a < ?b -> _ |- _ =>
      first [ specialize (H ltac:(lia))
            | assert_succeeds (assert (~ a < b) by lia); clear H ]
  | H : ?a > ?b -> _ |- _ =>
      first [ specialize (H ltac:(lia))
            | assert_succeeds (assert (~ a > b) by lia); clear H ]
  | H : forall i, ?p = @?q i -> _ |- _ =>
      first [ specialize (H _ eq_refl)
            | assert_succeeds (assert (forall i, p <> q i) by (intros; discriminate));
              clear H ]
  end.

Ltac zbool :=
  repeat match goal with
  | H : (_ =? _)%Z = true |- _ => apply Z.eqb_eq in H
  | H : (_ =? _)%Z = false |- _ => apply Z.eqb_neq in H
  | H : (_ <? _)%Z = true |- _ => apply Z.ltb_lt in H
  | H : (_ <? _)%Z = false |- _ => apply Z.ltb_ge in H
  end.

Ltac destruct_and :=
  repeat match goal with
  | H : _ /\ _ |- _ => destruct H
  | H : exists _, _ |- _ => destruct H
  end.

Ltac split_in :=
  repeat match goal with
  | H : In _ (_ ++ _) |- _ => apply in_app_or in H; destruct H as [H|H]
  | H : In _ (_ :: _) |- _ => destruct H as [H|H]; simplify_eq
  | H : In _ [] |- _ => destruct H
  end.

Ltac lookup_bounds :=
  repeat match goal with
  | H : _ !! _ = Some _ |- _ => pose proof (lookup_lt_Some _ _ _ H); revert H
  | H : _ !! _ = None |- _ => apply lookup_ge_None in H
  end; intros.

Ltac split_lookup :=
  repeat match goal with
  | H : <[_:=_]> _ !! _ = Some _ |- _ =>
      apply list_lookup_insert_Some in H;
      destruct H as [(?&?&?)|(?&?)]; simplify_eq
  | H : (_ ++ [_]) !! _ = Some _ |- _ =>
      apply lookup_snoc_Some in H;
      destruct H as [(?&?)|(?&?)]; simplify_eq
  end.

Ltac solve_in :=
  rewrite ?in_app_iff; simpl; eauto 8.

(** ** Lists, sums and traces *)

Lemma sum_list_with_insert {A} (f : A -> nat) (l : list A) i x y :
  l !! i = Some x ->
  sum_list_with f (<[i:=y]> l) + f x = sum_list_with f l + f y.
Proof.
  revert i. induction l as [|z l IH]; intros [|i] H; simplify_eq/=; try lia.
  specialize (IH _ H). lia.
Qed.

Lemma sum_list_with_snoc {A} (f : A -> nat) (l : list A) x :
  sum_list_with f (l ++ [x]) = sum_list_with f l + f x.
Proof. rewrite sum_list_with_app. simpl. lia. Qed.

Lemma pending_insert l i g g' :
  l !! i = Some g ->
  pending (<[i:=g']> l) + (match g with GFinished => 0 | _ => 1 end)
  = pending l + (match g' with GFinished => 0 | _ => 1 end).
Proof. apply sum_list_with_insert. Qed.

Lemma pending_zero l i g : pending l = 0 -> l !! i = Some g -> g = GFinished.
Proof.
  unfold pending. revert i.
  induction l as [|x l IH]; intros [|i] H0 H; simplify_eq/=.
  - destruct g; simpl in H0; by try lia.
  - apply (IH i); [lia|done].
Qed.

Lemma pending_pos l :
  pending l <> 0 -> exists i g, l !! i = Some g /\ g <> GFinished.
Proof.
  unfold pending. induction l as [|x l IH]; simpl; [done|]. intros H.
  destruct x; try (by eexists 0, _).
  destruct IH as (i & g & ? & ?); [simpl in H; lia|]. by exists (S i), g.
Qed.

Lemma all_finished_pending l :
  (forall i g, l !! i = Some g -> g = GFinished) -> pending l = 0.
Proof.
  unfold pending. induction l as [|x l IH]; intros H; simpl; [done|].
  rewrite (H 0 x eq_refl). simpl. apply IH. intros i g Hi. by apply (H (S i)).
Qed.

Lemma forallb_lookup {A} (f : A -> bool) l i x :
  forallb f l = true -> l !! i = Some x -> f x = true.
Proof.
  intros H Hi. rewrite forallb_forall in H.
  apply H, list_elem_of_In. by eapply list_elem_of_lookup_2.
Qed.

Lemma forallb_false {A} (f : A -> bool) l :
  forallb f l = false -> exists x, In x l /\ f x = false.
Proof.
  induction l as [|x l IH]; simpl; [done|].
  destruct (f x) eqn:Hx; simpl.
  - intros (y & ? & ?)%IH. exists y. auto.
  - intros _. exists x. auto.
Qed.

Lemma rejects_app t1 t2 : rejects (t1 ++ t2) = rejects t1 ++ rejects t2.
Proof. apply omap_app. Qed.

Lemma rejects_In i t : In i (rejects t) <-> In (EReject i) t.
Proof.
  induction t as [|e t IH]; [done|].
  destruct e; simpl; rewrite ?IH; intuition congruence.
Qed.

Lemma guarded_nil Q R : guarded Q R [].
Proof. intros [|??] ???; discriminate. Qed.

Lemma guarded_snoc Q R t e :
  guarded Q R t -> (Q e = true -> R t) -> guarded Q R (t ++ [e]).
Proof.
  intros Ht He t1 e' t2 Heq HQ.
  destruct t2 as [|x t2 _] using rev_ind.
  - apply app_inj_tail in Heq as [-> ->]. auto.
  - rewrite app_comm_cons, app_assoc in Heq.
    apply app_inj_tail in Heq as [-> _]. by eapply Ht.
Qed.

Lemma guarded_snoc2 Q R t e1 e2 :
  guarded Q R t -> (Q e1 = true -> R t) -> (Q e2 = true -> R (t ++ [e1])) ->
  guarded Q R (t ++ [e1; e2]).
Proof.
  intros. change (t ++ [e1; e2]) with (t ++ [e1] ++ [e2]). rewrite app_assoc.
  by repeat apply guarded_snoc.
Qed.

(** ** Runs *)

Lemma exec_reachable a sched : forall s s',
  reachable a s -> exec sched s = Some s' -> reachable a s'.
Proof.
  induction sched as [|act sched IH]; intros s s' Hr H; simplify_eq/=; [done|].
  destruct (step act s) as [s1|] eqn:Hs; [|done].
  eapply IH; [|done]. by eapply reach_step.
Qed.

Lemma exec_app l1 l2 s :
  exec (l1 ++ l2) s = match exec l1 s with Some s' => exec l2 s' | None => None end.
Proof.
  revert s. induction l1 as [|a l1 IH]; intros s; simpl; [done|].
  destruct (step a s); [apply IH|done].
Qed.

Lemma step_exited act s : proc s <> Running -> step act s = None.
Proof. unfold step. by destruct (proc s). Qed.

(** ** The invariants hold *)

Lemma step_cfg a s s' :
  step a s = Some s' ->
  cbs (app s') = cbs (app s) /\ waitTime (app s') = waitTime (app s) /\
  cbTimeout (app s') = cbTimeout (app s) /\
  shutdownTimeout (app s') = shutdownTimeout (app s) /\
  length (servers (app s')) = length (servers (app s)).
Proof.
  intros H. step_inv H; rewrite ?length_insert; done.
Qed.

Lemma inv_cfg a s : reachable a s -> cfg_inv a s.
Proof.
  induction 1 as [|s act s' _ IH Hs]; [done|].
  unfold cfg_inv in *. apply step_cfg in Hs.
  destruct IH as (?&?&?&?&?), Hs as (?&?&?&?&?). repeat split; congruence.
Qed.

Lemma timeoutCtx_cfg a s : cfg_inv a s -> timeoutCtx (app s) = timeoutCtx a.
Proof. intros (_ & _ & E & _). unfold timeoutCtx. by rewrite E. Qed.

Lemma step_counts a s s' :
  step a s = Some s' -> counts_inv s -> counts_inv s'.
Proof.
  unfold counts_inv. destruct s as [ap p w st cg sb ls tm pr tr]. sproj.
  intros H (H1 & H2 & H3 & H4 & H5 & H6 & H7 & H8 & H9 & H10 & H11).
  step_inv H; use_guards;
  repeat match goal with
  | H : _ !! _ = Some _ |- _ =>
      try pose proof (pending_insert _ _ _ GRunning H);
      try pose proof (pending_insert _ _ _ GReturned H);
      try pose proof (pending_insert _ _ _ GFinished H);
      pose proof (lookup_lt_Some _ _ _ H);
      revert H
  | H : _ !! _ = None |- _ => apply lookup_ge_None in H
  end; intros; zbool;
  unfold pending in *;
  rewrite ?length_insert, ?length_app, ?sum_list_with_snoc in *; simpl length in *.
  all: repeat split; intros; simplify_eq; sproj; use_guards;
    rewrite ?length_insert in *; try lia; eauto.
Qed.

Lemma inv_counts a s : reachable a s -> counts_inv s.
Proof.
  induction 1 as [|s act s' _ IH Hs]; [|by eapply step_counts].
  unfold counts_inv; simpl. repeat split; intros; simplify_eq/=; lia.
Qed.

Lemma step_rejects a s s' :
  step a s = Some s' -> rejects_inv s -> rejects_inv s'.
Proof.
  unfold rejects_inv. destruct s as [ap p w st cg sb ls tm pr tr]. sproj.
  intros H (H1 & H2 & H3 & H4).
  step_inv H; use_guards; destruct_and; lookup_bounds;
  rewrite ?length_insert, ?rejects_app in *; simpl rejects in *;
  rewrite ?app_nil_r in *.
  all: repeat split; intros; simplify_eq; sproj; use_guards; destruct_and;
    rewrite ?length_insert in *; try lia; eauto.
  all: try match goal with
    | |- _ = seq 0 (S _) => rewrite seq_S; simpl; congruence
    | H : ?i <= ?n, H' : ?n <= ?i |- _ => assert (i = n) by lia; subst; eauto
    end.
  all: split_in.
  all: try match goal with
    | |- exists sv, <[?i:=?x]> ?l !! ?k = Some sv /\ _ =>
        destruct (decide (i = k)) as [Heq|Hne];
        [ first [subst k | subst i | idtac];
          exists x; rewrite list_lookup_insert_eq by lia; split; [done|]
        | rewrite list_lookup_insert_ne by done ]
    end.
  all: simpl; eauto.
  all: try match goal with
    | H : forall i, In (EReject i) ?tr -> _, H' : In (EReject ?k) ?tr |- _ =>
        destruct (H _ H') as (sv' & Hsv' & Hrej); simplify_eq; done
    end.
Qed.

Lemma inv_rejects a s : reachable a s -> rejects_inv s.
Proof.
  induction 1 as [|s act s' _ IH Hs]; [|by eapply step_rejects].
  unfold rejects_inv; simpl. repeat split; intros; simplify_eq/=; done || lia.
Qed.

Lemma cell_insert t i k cs c i' k' :
  t !! i = Some cs -> cs !! k = Some c ->
  cell (<[i := <[k := ConnIdle]> cs]> t) i' k'
  = if decide (i' = i /\ k' = k) then Some ConnIdle else cell t i' k'.
Proof.
  intros Hi Hk. unfold cell.
  pose proof (lookup_lt_Some _ _ _ Hi). pose proof (lookup_lt_Some _ _ _ Hk).
  destruct (decide (i' = i)) as [->|Hne].
  - rewrite list_lookup_insert_eq, Hi by done.
    destruct (decide (k' = k)) as [->|Hnk].
    + rewrite list_lookup_insert_eq by done. by rewrite decide_True.
    + rewrite list_lookup_insert_ne by done. by rewrite decide_False by tauto.
  - rewrite list_lookup_insert_ne by done. by rewrite decide_False by tauto.
Qed.

Lemma ctab_lookup a i sv :
  servers a !! i = Some sv -> ctab a !! i = Some (conns (srv sv)).
Proof. intros H. unfold ctab. by rewrite list_lookup_fmap, H. Qed.

Lemma ctab_reject l i sv :
  l !! i = Some sv ->
  map (fun sv => conns (srv sv)) (<[i := rejectReq sv]> l)
  = map (fun sv => conns (srv sv)) l.
Proof.
  intros H. rewrite (list_fmap_insert (fun sv => conns (srv sv))). simpl.
  apply list_insert_id. by rewrite list_lookup_fmap, H.
Qed.

Lemma ctab_finish l i k sv :
  map (fun sv => conns (srv sv)) (<[i := finish_conn k sv]> l)
  = <[i := <[k := ConnIdle]> (conns (srv sv))]> (map (fun sv => conns (srv sv)) l).
Proof. by rewrite (list_fmap_insert (fun sv => conns (srv sv))). Qed.

(** What a step does to the connections and to the trace. *)
Lemma step_ctab a s s' :
  step a s = Some s' ->
  (ctab (app s') = ctab (app s) /\
   exists es, trace s' = trace s ++ es /\ no_reqdone es)
  \/ (exists i k cs,
        ctab (app s) !! i = Some cs /\ cs !! k = Some (ConnActive true) /\
        ctab (app s') = <[i := <[k := ConnIdle]> cs]> (ctab (app s)) /\
        trace s' = trace s ++ [EReqDone i k]).
Proof.
  destruct s as [ap p w st cg sb ls tm pr tr]. unfold ctab. sproj.
  intros H. step_inv H.
  all: try (right; do 3 eexists; split; [by apply ctab_lookup|];
            split; [eassumption|]; split; [apply ctab_finish|done]).
  all: left; rewrite ?ctab_reject by done; split; [done|].
  all: first [ by (exists []; rewrite app_nil_r; split; [done|intros ?? []])
             | rewrite <- ?app_assoc; eexists; split; [reflexivity|];
               intros ?? Hin; simpl in Hin; intuition discriminate ].
Qed.

Lemma inv_conns a s : reachable a s -> conns_inv a s.
Proof.
  induction 1 as [|s act s' _ [IH1 IH2] Hs].
  { split; [by left|]. intros ?? []. }
  destruct (step_ctab _ _ _ Hs) as [(Ht & es & Htr & Hes)|(i & k & cs & Hi & Hk & Ht & Htr)];
    split; rewrite ?Ht, ?Htr; clear Ht Htr.
  - intros i k. destruct (IH1 i k) as [?|(?&?&?)]; [by left|right].
    rewrite in_app_iff. tauto.
  - intros i k [?|Hin]%in_app_or; [eauto|]. by destruct (Hes i k).
  - intros i' k'. rewrite (cell_insert _ _ _ _ _ _ _ Hi Hk).
    assert (Hc : cell (ctab (app s)) i k = Some (ConnActive true))
      by (unfold cell; by rewrite Hi).
    case_decide as Hd.
    + destruct Hd as [-> ->]. right. split; [done|].
      split; [|apply in_app_iff; right; by left].
      destruct (IH1 i k) as [He|(He&_)]; congruence.
    + destruct (IH1 i' k') as [?|(?&?&?)]; [by left|right].
      rewrite in_app_iff. tauto.
  - intros i' k' [?|[Heq|[]]]%in_app_or; [eauto|]. simplify_eq.
    assert (Hc : cell (ctab (app s)) i' k' = Some (ConnActive true))
      by (unfold cell; by rewrite Hi).
    destruct (IH1 i' k') as [He|(He&_)]; congruence.
Qed.

Lemma in_flight_cell a i k :
  in_flight a i k <-> exists b, cell (ctab a) i k = Some (ConnActive b).
Proof.
  unfold in_flight, cell, ctab. rewrite list_lookup_fmap. split.
  - intros (sv & b & -> & Hk). by exists b.
  - intros [b Hb]. destruct (servers a !! i) as [sv|]; [|done].
    by exists sv, b.
Qed.

Lemma quiescent_cell a i sv k c :
  servers a !! i = Some sv -> closeIdleConns (srv sv) = true ->
  cell (ctab a) i k = Some c -> c = ConnIdle.
Proof.
  intros Hi Hq. unfold cell. rewrite (ctab_lookup _ _ _ Hi). intros Hk.
  unfold closeIdleConns in Hq. rewrite forallb_forall in Hq.
  apply list_elem_of_lookup_2, list_elem_of_In, Hq in Hk. by destruct c.
Qed.

Lemma not_quiescent sv :
  closeIdleConns (srv sv) = false ->
  exists k b, conns (srv sv) !! k = Some (ConnActive b).
Proof.
  unfold closeIdleConns. induction (conns (srv sv)) as [|c l IH]; simpl; [done|].
  destruct c as [|b]; simpl.
  - intros (k & b & ?)%IH. by exists (S k), b.
  - intros _. by exists 0, b.
Qed.

Lemma requests_finish_cell a i k :
  requests_finish a = true -> cell (ctab a) i k <> Some (ConnActive false).
Proof.
  unfold requests_finish, cell, ctab. intros H Hc.
  rewrite list_lookup_fmap in Hc.
  destruct (servers a !! i) as [sv|] eqn:Hi; [|done]. simpl in Hc.
  apply (forallb_lookup _ _ _ _ H) in Hi.
  by apply (forallb_lookup _ _ _ _ Hi) in Hc.
Qed.

Lemma step_facts a s s' :
  step a s = Some s' -> facts_inv s -> facts_inv s'.
Proof.
  unfold facts_inv, timeoutCtx. destruct s as [ap p w st cg sb ls tm pr tr]. sproj.
  intros H (H1 & H2 & H3 & H4 & H5 & H6 & H7).
  step_inv H; use_guards.
  all: repeat split; intros; simplify_eq; sproj; use_guards; split_lookup;
       destruct_and; try lia; try solve_in.
  all: try match goal with
    | H : forall i g, ?l !! i = Some g -> _ -> exists err, _, H' : ?l !! _ = Some _ |- exists err, _ =>
        edestruct (H _ _ H') as [err' ?]; [solve [eauto]|]; exists err'; solve_in
    end.
  all: try (match goal with H : _ \/ _ |- _ => destruct H; simplify_eq end).
  all: try (eexists; solve_in).
Qed.

Lemma inv_facts a s : reachable a s -> facts_inv s.
Proof.
  induction 1 as [|s act s' _ IH Hs]; [|by eapply step_facts].
  unfold facts_inv; simpl. repeat split; intros; simplify_eq/=; lia.
Qed.

Lemma step_cbret a s s' :
  step a s = Some s' -> cbret_inv s -> cbret_inv s'.
Proof.
  unfold cbret_inv, timeoutCtx. destruct s as [ap p w st cg sb ls tm pr tr]. sproj.
  intros H H1.
  step_inv H; intros j' Hin; split_in; eauto.
Qed.

Lemma inv_cbret a s : reachable a s -> cbret_inv s.
Proof.
  induction 1 as [|s act s' _ IH Hs]; [|by eapply step_cbret].
  intros ? [].
Qed.

(** What the state guarantees where each stage emits its first event. *)
Lemma key_drain s i :
  rejects_inv s -> pc s = PReject i -> servers (app s) !! i = None ->
  forall k, k < length (servers (app s)) -> In (EReject k) (trace s).
Proof.
  intros (H1 & _) Hpc Hi k Hk. destruct (H1 _ Hpc) as [Hr Hle].
  apply lookup_ge_None in Hi. apply rejects_In. rewrite Hr.
  apply in_seq. lia.
Qed.

Lemma key_stopcall s i g :
  counts_inv s -> facts_inv s -> stops s !! i = Some g -> In EDrainEnd (trace s).
Proof.
  intros (_ & _ & _ & H4 & _) (_ & H2 & _) Hi.
  apply lookup_lt_Some in Hi. apply H2.
  destruct (decide (phase (pc s) < 6)) as [Hp|]; [|lia].
  apply H4 in Hp. lia.
Qed.

Lemma key_cbcall s j g :
  counts_inv s -> facts_inv s -> cbgs s !! j = Some g ->
  forall i, i < length (servers (app s)) -> exists err, In (EStopRet i err) (trace s).
Proof.
  intros (_ & _ & _ & _ & H5 & _ & H7 & _ & _ & H10 & _) (_ & _ & H3 & _) Hj i Hi.
  apply lookup_lt_Some in Hj.
  assert (Hp : phase (pc s) > 6).
  { destruct (decide (phase (pc s) < 7)) as [Hp|]; [|lia]. apply H7 in Hp. lia. }
  specialize (H5 Hp). specialize (H10 Hp).
  destruct (lookup_lt_is_Some_2 (stops s) i) as [g' Hg']; [lia|].
  apply (H3 i g' Hg'). right. by eapply pending_zero.
Qed.

Lemma key_close s j :
  counts_inv s -> facts_inv s -> pc s = PCbSpawn j -> cbs (app s) !! j = None ->
  wg s = 0%Z ->
  forall j', j' < length (cbs (app s)) -> In (ECbRet j') (trace s).
Proof.
  intros (_ & H2 & _ & _ & _ & H6 & _ & _ & H9 & _) (_ & _ & _ & _ & H5 & _)
    Hpc Hj Hwg j' Hj'.
  apply lookup_ge_None in Hj. specialize (H6 _ Hpc).
  destruct (lookup_lt_is_Some_2 (cbgs s) j') as [g' Hg']; [lia|].
  apply (H5 j' g' Hg'). right. eapply pending_zero; [|done]. lia.
Qed.

Lemma key_stopret a s i sv err :
  conns_inv a s -> servers (app s) !! i = Some sv -> stop sv = Some err ->
  forall k, in_flight a i k -> In (EReqDone i k) (trace s).
Proof.
  intros [Hc _] Hi Hstop k [b Hb]%in_flight_cell.
  unfold stop, Shutdown_poll in Hstop.
  destruct (closeIdleConns (srv sv)) eqn:Hq; [|done].
  destruct (Hc i k) as [He|(_ & _ & ?)]; [|done].
  rewrite Hb in He. by apply (quiescent_cell _ _ _ _ _ Hi Hq) in He.
Qed.

Lemma step_order a act s s' :
  step act s = Some s' ->
  cfg_inv a s -> counts_inv s -> rejects_inv s -> facts_inv s -> conns_inv a s ->
  order_inv a s -> order_inv a s'.
Proof.
  intros H (Hcb & Hw & _ & _ & HN) Hcnt Hrej Hfact Hconn.
  unfold order_inv. rewrite <- HN, <- Hcb, <- Hw.
  intros (O1 & O2 & O3 & O4 & O5 & O6 & O7).
  pose proof (fun i => key_drain s i Hrej) as Kd.
  pose proof (fun i g => key_stopcall s i g Hcnt Hfact) as Ks.
  pose proof (fun j g => key_cbcall s j g Hcnt Hfact) as Kc.
  pose proof (fun j => key_close s j Hcnt Hfact) as Kx.
  pose proof (fun i sv err => key_stopret a s i sv err Hconn) as Kr.
  destruct Hfact as (F1 & _).
  clear Hcnt Hrej Hconn Hcb Hw HN.
  destruct s as [ap p w st cg sb ls tm pr tr]. sproj.
  step_inv H; use_guards; zbool.
  all: repeat split; try assumption;
    try match goal with |- forall i : nat, guarded _ _ _ => intros i0 end;
    repeat first [ apply guarded_snoc2 | apply guarded_snoc ];
    try assumption; cbn; intros; try discriminate; split_in; eauto.
  all: try (rewrite ?in_app_iff; eauto; fail).
  all: try (match goal with H : Nat.eqb _ _ = true |- _ => apply Nat.eqb_eq in H; subst end; eauto).
  all: try (edestruct Kc as [err' ?]; [eassumption..|]; exists err'; solve_in).
Qed.

Lemma inv_order a s : reachable a s -> order_inv a s.
Proof.
  induction 1 as [|s act s' Hr IH Hs].
  - unfold order_inv; simpl.
    split; [apply guarded_nil|]. split; [intros ? []|].
    repeat (split; [apply guarded_nil|]). intros ?. apply guarded_nil.
  - eapply step_order; eauto using inv_cfg, inv_counts, inv_rejects, inv_facts, inv_conns.
Qed.

Lemma stop_ret_after_requests a s i err k :
  reachable a s -> In (EStopRet i err) (trace s) -> in_flight a i k ->
  In (EReqDone i k) (trace s).
Proof.
  intros Hr Hin Hfl. destruct (inv_order _ _ Hr) as (_ & _ & _ & _ & _ & _ & O7).
  apply in_split in Hin as (t1 & t2 & Ht).
  rewrite Ht. apply in_app_iff. left.
  eapply (O7 i); [done| |done]. simpl. apply Nat.eqb_refl.
Qed.

Lemma step_watchdog a s s' :
  step a s = Some s' -> watchdog_inv s -> watchdog_inv s'.
Proof.
  unfold watchdog_inv. destruct s as [ap p w st cg sb ls tm pr tr]. sproj.
  intros H (H1 & H2).
  step_inv H; use_guards; split; intros; try lia; eauto.
Qed.

Lemma inv_watchdog a s : reachable a s -> watchdog_inv s.
Proof.
  induction 1 as [|s act s' _ IH Hs]; [|by eapply step_watchdog].
  split; simpl; lia.
Qed.

Lemma step_timer a s s' : step a s = Some s' -> timer_inv s -> timer_inv s'.
Proof.
  unfold timer_inv. destruct s as [ap p w st cg sb ls tm pr tr]. sproj.
  intros H H1.
  step_inv H; intros; try lia; eauto; try (specialize (H1 ltac:(lia)); done).
Qed.

Lemma inv_timer a s : reachable a s -> timer_inv s.
Proof.
  induction 1 as [|s act s' _ IH Hs]; [|by eapply step_timer]. done.
Qed.

(** ** Graceful runs: progress and termination *)

Lemma step_live act s s' :
  internal act = true -> step act s = Some s' ->
  counts_inv s -> no_callback_panics (app s) = true ->
  live_inv s -> live_inv s'.
Proof.
  unfold live_inv, counts_inv, no_callback_panics.
  destruct s as [ap p w st cg sb ls tm pr tr]. sproj.
  intros Hint H (_ & _ & _ & _ & _ & _ & _ & _ & Hwg & _) Hnp (L1 & L2 & L3 & L4).
  step_inv H; try discriminate; use_guards; zbool.
  all: try match goal with
    | H : cbs _ !! _ = Some ?cb, H' : ?cb _ = CbPanics |- _ =>
        apply (forallb_lookup _ _ _ _ Hnp) in H; rewrite H' in H; discriminate
    end.
  all: try match goal with
    | H : _ !! _ = Some GReturned |- _ =>
        pose proof (pending_insert _ _ _ GFinished H); simpl in *; lia
    end.
  all: repeat split; intros; simplify_eq; sproj; try lia; eauto.
Qed.

Lemma graceful_live a sched s :
  no_callback_panics a = true -> graceful sched = true ->
  exec sched (init a) = Some s -> reachable a s /\ live_inv s.
Proof.
  intros Hnp Hg He. destruct sched as [|[] rest]; try done. simpl in Hg.
  change (exec (ASignal :: rest) (init a))
    with (exec rest (set_sigbuf true (init a))) in He.
  assert (H0 : reachable a (set_sigbuf true (init a)) /\
               live_inv (set_sigbuf true (init a))).
  { split; [apply (reach_step a (init a) ASignal); [apply reach_init|reflexivity]|].
    repeat split; simpl; intros; done || lia. }
  revert He H0. generalize (set_sigbuf true (init a)).
  induction rest as [|act rest IH]; intros s0 He [Hr Hl]; simplify_eq/=; [done|].
  apply andb_prop in Hg as [Ha Hg].
  destruct (step act s0) as [s1|] eqn:Hs; [|done].
  apply (IH Hg s1 He). split; [by eapply reach_step|].
  eapply step_live; eauto using inv_counts.
  destruct (inv_cfg _ _ Hr) as (E1 & _ & E3 & _).
  unfold no_callback_panics, timeoutCtx in *. by rewrite E1, E3.
Qed.

Lemma graceful_app sched sched' :
  graceful sched = true -> forallb internal sched' = true ->
  graceful (sched ++ sched') = true.
Proof.
  destruct sched as [|[] rest]; try done. simpl. intros H H'.
  rewrite forallb_app. by rewrite H, H'.
Qed.

Lemma callbacks_return_no_panics a :
  callbacks_return a = true -> no_callback_panics a = true.
Proof.
  unfold callbacks_return, no_callback_panics. rewrite !forallb_forall.
  intros H cb Hin. specialize (H cb Hin). by destruct (cb _).
Qed.

Lemma sweight_reject l i sv :
  l !! i = Some sv ->
  sum_list_with sweight (<[i := rejectReq sv]> l) = sum_list_with sweight l.
Proof.
  intros H. pose proof (sum_list_with_insert sweight l i sv (rejectReq sv) H) as E.
  change (sweight (rejectReq sv)) with (sweight sv) in E. lia.
Qed.

Lemma sweight_finish l i k sv :
  l !! i = Some sv -> conns (srv sv) !! k = Some (ConnActive true) ->
  sum_list_with sweight (<[i := finish_conn k sv]> l) + 1 = sum_list_with sweight l.
Proof.
  intros H Hk. pose proof (sum_list_with_insert sweight l i sv (finish_conn k sv) H) as E.
  pose proof (sum_list_with_insert cweight _ k _ ConnIdle Hk) as E'.
  change (sweight (finish_conn k sv))
    with (sum_list_with cweight (<[k := ConnIdle]> (conns (srv sv)))) in E.
  change (sweight sv) with (sum_list_with cweight (conns (srv sv))) in E.
  simpl in E'. lia.
Qed.

(** Every step of the program uses up some of the measure: no run of the
    program goes on forever. *)
Lemma step_measure act s s' :
  internal act = true -> step act s = Some s' -> measure s' < measure s.
Proof.
  unfold measure. destruct s as [ap p w st cg sb ls tm pr tr]. sproj.
  intros Hint H.
  step_inv H; try discriminate; lookup_bounds;
  rewrite ?length_insert, ?sum_list_with_snoc; simpl gweight; simpl pcweight.
  all: repeat match goal with
    | H : ?l !! ?i = Some ?g |- context [sum_list_with gweight (<[?i := ?g']> ?l)] =>
        pose proof (sum_list_with_insert gweight l i g g' H); revert H
    | H : ?l !! ?i = Some ?sv |- context [<[?i := rejectReq ?sv]> ?l] =>
        rewrite (sweight_reject l i sv H)
    | H : ?l !! ?i = Some ?sv, H' : conns (srv ?sv) !! ?k = Some (ConnActive true)
      |- context [<[?i := finish_conn ?k ?sv]> ?l] =>
        pose proof (sweight_finish l i k sv H H'); revert H'
    end; intros; simpl in *; try lia.
Qed.

Lemma exec_measure sched : forall s s',
  forallb internal sched = true -> exec sched s = Some s' ->
  length sched + measure s' <= measure s.
Proof.
  induction sched as [|act sched IH]; intros s s' Hi H; simplify_eq/=; [lia|].
  apply andb_prop in Hi as [Ha Hi].
  destruct (step act s) as [s1|] eqn:Hs; [|done].
  apply (step_measure _ _ _ Ha) in Hs. specialize (IH _ _ Hi H). lia.
Qed.

Lemma candidates_internal s act : In act (candidates s) -> internal act = true.
Proof.
  unfold candidates. intros [<-|H]; [done|].
  repeat (apply in_app_or in H as [H|H]).
  - by apply in_map_iff in H as (? & <- & _).
  - by apply in_map_iff in H as (? & <- & _).
  - apply in_flat_map in H as (i & _ & H).
    destruct (servers (app s) !! i); [|done].
    by apply in_map_iff in H as (? & <- & _).
Qed.

Lemma enabled_candidate s act s' :
  internal act = true -> step act s = Some s' -> In act (candidates s).
Proof.
  unfold step, candidates. destruct (proc s); [|done].
  destruct act as [| | | | |i|j|i k]; try done; intros _ H.
  - by left.
  - right. apply in_or_app. left. apply in_map, in_seq.
    unfold step_stop in H. destruct (stops s !! i) eqn:Hi; [|done].
    apply lookup_lt_Some in Hi. lia.
  - right. apply in_or_app. right. apply in_or_app. left. apply in_map, in_seq.
    unfold step_cb in H. destruct (cbgs s !! j) eqn:Hj; [|done].
    apply lookup_lt_Some in Hj. lia.
  - right. apply in_or_app. right. apply in_or_app. right.
    unfold step_handler in H.
    destruct (servers (app s) !! i) as [sv|] eqn:Hi; [|done].
    destruct (conns (srv sv) !! k) eqn:Hk; [|done].
    apply lookup_lt_Some in Hk. pose proof (lookup_lt_Some _ _ _ Hi).
    apply in_flat_map. exists i. split; [apply in_seq; lia|].
    rewrite Hi. apply in_map, in_seq. lia.
Qed.

Lemma stuckb_stuck s : stuckb s = true <-> stuck s.
Proof.
  unfold stuckb, stuck. rewrite forallb_forall. split.
  - intros H act Hi. destruct (step act s) as [s'|] eqn:Hs; [|done].
    pose proof (enabled_candidate _ _ _ Hi Hs) as Hc. apply H in Hc.
    by rewrite Hs in Hc.
  - intros H act Hc. by rewrite (H act (candidates_internal _ _ Hc)).
Qed.

Lemma not_stuckb s :
  stuckb s = false -> exists act s', internal act = true /\ step act s = Some s'.
Proof.
  unfold stuckb. intros (act & Hin & Hact)%forallb_false.
  destruct (step act s) as [s'|] eqn:Hs; [|done].
  exists act, s'. eauto using candidates_internal.
Qed.

(** Every state can be run to rest by steps of the program. *)
Lemma run_to_rest n : forall s,
  measure s <= n ->
  exists sched s', forallb internal sched = true /\ exec sched s = Some s' /\ stuck s'.
Proof.
  induction n as [|n IH]; intros s Hm.
  - exists [], s. repeat split. apply stuckb_stuck.
    destruct (stuckb s) eqn:Hb; [done|].
    apply not_stuckb in Hb as (act & s' & Hi & Hs).
    apply (step_measure _ _ _ Hi) in Hs. lia.
  - destruct (stuckb s) eqn:Hb.
    + exists [], s. repeat split. by apply stuckb_stuck.
    + apply not_stuckb in Hb as (act & s1 & Hi & Hs).
      destruct (IH s1) as (sched & s' & Hint & He & Hst).
      { apply (step_measure _ _ _ Hi) in Hs. lia. }
      exists (act :: sched), s'. simpl. rewrite Hi, Hs. by repeat split.
Qed.

(** Where a graceful run can come to rest: at the end of [shutdown], or at
    the barrier of the Callbacks stage, every callback having been started
    and each one having either finished or being inside a call that does
    not return. *)
Lemma stuck_char a s :
  reachable a s -> live_inv s -> requests_finish a = true -> stuck s ->
  pc s = PDone \/
  (exists j, pc s = PCbSpawn j /\ cbs (app s) !! j = None /\
     forall j' g, cbgs s !! j' = Some g ->
       g = GFinished \/
       (g = GRunning /\
        exists cb, cbs (app s) !! j' = Some cb /\
                   cb (timeoutCtx (app s)) = CbBlocks)).
Proof.
  intros Hr (Hrun & Htm & Hsel & Hsig) Hfin Hstuck.
  pose proof (inv_counts _ _ Hr) as (C1 & C2 & C3 & C4 & C5 & C6 & C7 & C8 & C9 & C10 & C11).
  pose proof (inv_conns _ _ Hr) as (Hc & _).
  pose proof (Hstuck AMain eq_refl) as Hm.
  unfold step in Hm. rewrite Hrun in Hm.
  unfold StartAndServe, shutdown, close in Hm.
  destruct (pc s) as [| | | |i| |i|j| |] eqn:Hpc; simpl in *; try discriminate.
  - by rewrite Hsel in Hm.
  - by destruct (servers (app s) !! i).
  - destruct (servers (app s) !! i) eqn:Hi; [done|].
    destruct (wg s =? 0)%Z eqn:Hwg; [done|]. exfalso.
    apply Z.eqb_neq in Hwg. specialize (C7 ltac:(lia)).
    apply nil_length_inv in C7. rewrite C7 in C9. simpl in C9.
    destruct (pending_pos (stops s)) as (k & g & Hk & Hg); [unfold pending in *; lia|].
    pose proof (Hstuck (AStop k) eq_refl) as Hs.
    unfold step in Hs. rewrite Hrun in Hs. unfold step_stop in Hs. rewrite Hk in Hs.
    destruct (lookup_lt_is_Some_2 (servers (app s)) k) as [sv Hsv].
    { apply lookup_lt_Some in Hk. lia. }
    rewrite Hsv in Hs. destruct g; try done.
    destruct (stop sv) eqn:Hstop; [done|].
    unfold stop, Shutdown_poll in Hstop.
    destruct (closeIdleConns (srv sv)) eqn:Hq; [done|].
    apply not_quiescent in Hq as (idx & b & Hidx).
    assert (Hcell : cell (ctab (app s)) k idx = Some (ConnActive b)).
    { unfold cell. by rewrite (ctab_lookup _ _ _ Hsv). }
    assert (b = true) as ->.
    { destruct (Hc k idx) as [He|(He & _)]; [|congruence].
      rewrite Hcell in He. symmetry in He.
      destruct b; [done|]. by apply requests_finish_cell in He. }
    pose proof (Hstuck (AHandler k idx) eq_refl) as Hh.
    unfold step in Hh. rewrite Hrun in Hh. unfold step_handler in Hh.
    by rewrite Hsv, Hidx in Hh.
  - destruct (cbs (app s) !! j) eqn:Hj; [done|].
    right. exists j. split; [done|]. split; [done|].
    intros j' g Hg.
    pose proof (Hstuck (ACb j') eq_refl) as Hs.
    unfold step in Hs. rewrite Hrun in Hs. unfold step_cb in Hs. rewrite Hg in Hs.
    destruct (lookup_lt_is_Some_2 (cbs (app s)) j') as [cb Hcb].
    { apply lookup_lt_Some in Hg. lia. }

    rewrite Hcb in Hs. destruct g; try done; [|by left].
    right. split; [done|]. exists cb. split; [done|].
    by destruct (cb (timeoutCtx (app s))).
  - by left.
Qed.

Lemma rest_is_done a s :
  reachable a s -> live_inv s -> requests_finish a = true ->
  callbacks_return a = true -> stuck s -> pc s = PDone.
Proof.
  intros Hr Hl Hfin Hret Hstuck.
  destruct (stuck_char _ _ Hr Hl Hfin Hstuck) as [?|(j & Hpc & Hj & Hall)]; [done|].
  exfalso.
  pose proof (inv_counts _ _ Hr) as (_ & _ & _ & _ & _ & _ & _ & _ & C9 & C10 & _).
  pose proof (inv_cfg _ _ Hr) as Hcfg.
  destruct Hl as (Hrun & _).
  assert (pending (cbgs s) = 0) as Hp.
  { apply all_finished_pending. intros j' g Hg.
    destruct (Hall j' g Hg) as [?|(_ & cb & Hcb & Hb)]; [done|].
    rewrite (timeoutCtx_cfg _ _ Hcfg) in Hb.
    destruct Hcfg as (E1 & _). rewrite E1 in Hcb.
    unfold callbacks_return in Hret.
    apply (forallb_lookup _ _ _ _ Hret) in Hcb. by rewrite Hb in Hcb. }
  rewrite Hpc in C10. simpl in C10. rewrite C10, Hp in C9 by lia.
  pose proof (Hstuck AMain eq_refl) as Hm.
  unfold step in Hm. rewrite Hrun in Hm.
  unfold StartAndServe, shutdown in Hm. rewrite Hpc in Hm.
  by rewrite Hj, C9 in Hm.
Qed.

Lemma done_all_stages a s :
  reachable a s -> pc s = PDone -> all_stages_done a (trace s).
Proof.
  intros Hr Hpc.
  pose proof (inv_counts _ _ Hr) as (_ & _ & _ & _ & C5 & _ & _ & C8 & _ & C10 & C11).
  pose proof (inv_rejects _ _ Hr) as (_ & _ & R3 & _).
  pose proof (inv_facts _ _ Hr) as (F1 & F2 & F3 & F4 & F5 & F6 & F7).
  pose proof (inv_cfg _ _ Hr) as Hcfg.
  rewrite (timeoutCtx_cfg _ _ Hcfg) in F4.
  destruct Hcfg as (E1 & E2 & _ & _ & EN).
  rewrite Hpc in *. simpl in *. rewrite E1, E2, EN in *.
  repeat split; try (by auto with lia).
  - intros i Hi. apply rejects_In. rewrite R3 by lia. apply in_seq. lia.
  - intros i Hi.
    destruct (lookup_lt_is_Some_2 (stops s) i) as [g Hg]; [rewrite C5; lia|].
    apply (F3 i g Hg). right. eapply pending_zero; [apply C10; lia|done].
  - destruct (lookup_lt_is_Some_2 (cbgs s) j) as [g Hg]; [rewrite C8; lia|].
    apply (F4 j g Hg).
    rewrite (pending_zero (cbgs s) j g); [done|apply C11; lia|done].
  - destruct (lookup_lt_is_Some_2 (cbgs s) j) as [g Hg]; [rewrite C8; lia|].
    apply (F5 j g Hg). right. eapply pending_zero; [apply C11; lia|done].
Qed.

(** ** What [stop] returns plays no part *)

Lemma logs_forget t : logs (map forget_ev t) = logs t.
Proof.
  unfold logs. induction t as [|e t IH]; [done|].
  destruct e; simpl; first [exact IH | apply (f_equal (cons _) IH)].
Qed.

Lemma lookup_map_forget l i :
  map forget_sv l !! i = option_map forget_sv (l !! i).
Proof. apply (list_lookup_fmap forget_sv). Qed.

Lemma insert_map_forget l i sv :
  map forget_sv (<[i := sv]> l) = <[i := forget_sv sv]> (map forget_sv l).
Proof. apply (list_fmap_insert forget_sv). Qed.

Lemma stop_forget sv :
  stop (forget_sv sv) = option_map (fun _ => None) (stop sv).
Proof.
  unfold stop, Shutdown_poll, closeIdleConns. simpl.
  by destruct (forallb is_idle (conns (srv sv))).
Qed.

Ltac forget_done :=
  unfold forget, forget_app; cbn [option_map]; sproj;
  rewrite ?insert_map_forget, ?map_app; reflexivity.

Lemma step_forget act s :
  step act (forget s) = option_map forget (step act s).
Proof.
  destruct s as [ap p w st cg sb ls tm pr tr].
  unfold step, StartAndServe, shutdown, close, step_listener, step_timerfunc, step_stop, step_cb,
    step_handler, wgDone, timeoutCtx, forget, forget_app.
  sproj. rewrite ?lookup_map_forget.
  destruct pr; [|done].
  destruct act as [| | | | |i|j|i k]; rewrite ?lookup_map_forget.
  - destruct sb; forget_done.
  - destruct tm; first [done | forget_done].
  - destruct p as [| | | |i| |i|j| |]; rewrite ?lookup_map_forget;
      try first [done | forget_done | (destruct sb; first [done | forget_done])].
    + destruct (servers ap !! i) as [sv|]; simpl option_map; cbv iota; forget_done.
    + destruct (servers ap !! i) as [sv|]; simpl option_map; cbv iota;
        [forget_done|]. destruct (w =? 0)%Z; first [done | forget_done].
    + destruct (cbs ap !! j); [forget_done|].
      destruct (w =? 0)%Z; first [done | forget_done].
  - destruct ls; [done|]. destruct sb; first [done | forget_done].
  - destruct tm; first [done | forget_done].
  - destruct (st !! i) as [[| | |]|]; try done.
    + destruct (servers ap !! i) as [sv|]; simpl option_map; cbv iota;
        first [done | forget_done].
    + destruct (servers ap !! i) as [sv|]; simpl option_map; cbv iota; [|done].
      rewrite stop_forget. destruct (stop sv); simpl option_map; cbv iota;
        first [done | forget_done].
    + destruct (servers ap !! i); simpl option_map; cbv iota;
        (destruct (w - 1 <? 0)%Z; forget_done).
  - destruct (cg !! j) as [[| | |]|]; try done.
    + destruct (cbs ap !! j); first [done | forget_done].
    + destruct (cbs ap !! j) as [cb|]; [|done].
      destruct (cb _); first [done | forget_done].
    + destruct (cbs ap !! j);
        (destruct (w - 1 <? 0)%Z; forget_done).
  - destruct (servers ap !! i) as [sv|]; simpl option_map; cbv iota; [|done].
    simpl conns.
    destruct (conns (srv sv) !! k) as [[|[|]]|]; first [done | forget_done].
Qed.

Lemma exec_forget sched : forall s,
  exec sched (forget s) = option_map forget (exec sched s).
Proof.
  induction sched as [|act sched IH]; intros s; simpl; [done|].
  rewrite step_forget. destruct (step act s); simpl; [apply IH|done].
Qed.

Lemma forget_init a : forget (init a) = init (forget_app a).
Proof. done. Qed.

Lemma exec_same_but_errors a a' sched s :
  forget_app a' = forget_app a -> exec sched (init a) = Some s ->
  exists s', exec sched (init a') = Some s' /\ forget s' = forget s.
Proof.
  intros Ha H.
  pose proof (exec_forget sched (init a)) as E. rewrite H in E. simpl in E.
  pose proof (exec_forget sched (init a')) as E'.
  rewrite !forget_init, Ha in *. rewrite E in E'.
  destruct (exec sched (init a')) as [s'|]; [|discriminate].
  exists s'. split; [done|]. simpl in E'. congruence.
Qed.

(** ** Options *)

Lemma options_keep_config l a :
  let a' := fold_left (fun app (opt : Option) => opt app)
              (map WithShutdownCallbacks l) a in
  servers a' = servers a /\ shutdownTimeout a' = shutdownTimeout a /\
  waitTime a' = waitTime a /\ cbTimeout a' = cbTimeout a.
Proof.
  revert a. induction l as [|c l IH]; intros a; simpl; [done|].
  destruct (IH (WithShutdownCallbacks c a)) as (?&?&?&?). done.
Qed.

Lemma WithShutdownCallbacks_ext c a a' :
  servers a = servers a' -> shutdownTimeout a = shutdownTimeout a' ->
  waitTime a = waitTime a' -> cbTimeout a = cbTimeout a' ->
  WithShutdownCallbacks c a = WithShutdownCallbacks c a'.
Proof. unfold WithShutdownCallbacks. by intros -> -> -> ->. Qed.

Lemma ServeHTTP_reject m r :
  reject m = true -> unavailable_response (ServeHTTP m r).
Proof. intros H. unfold ServeHTTP. rewrite H. by repeat split. Qed.

(** ** The example runs *)

Lemma demo_exec : exec demo_sched (init demo_app) = Some demo_final.
Proof. vm_compute. reflexivity. Qed.

Lemma drained_exec : exec drained_sched (init demo_app) = Some drained.
Proof. vm_compute. reflexivity. Qed.

Lemma stalled_exec : exec stalled_sched (init stalled_app) = Some stalled.
Proof. vm_compute. reflexivity. Qed.

Lemma patient_exec : exec patient_sched (init patient_app) = Some patient.
Proof. vm_compute. reflexivity. Qed.

Lemma panicky_exec : exec panicky_sched (init panicky_app) = Some panicky.
Proof. vm_compute. reflexivity. Qed.

(** * The claims *)

(** C1. Stage order.  In every execution of the shutdown sequence, for any
    number of servers and at every moment of it: [rejectReq] is called on
    the servers in registry order, and on all of them before the Drain
    sleep begins; that sleep is [time.Sleep(waitTime)]; no [stop] is called
    before it is over; every server's [stop] has returned before any
    callback is called; every callback has returned before [close] is
    called. *)
Theorem shutdown_stage_order a s :
  reachable a s -> stage_order a (trace s).
Proof.
  intros Hr.
  destruct (inv_order _ _ Hr) as (O1 & O2 & O3 & O4 & O5 & O6 & _).
  destruct (inv_rejects _ _ Hr) as (R1 & R2 & R3 & _).
  destruct (inv_cfg _ _ Hr) as (_ & _ & _ & _ & HN).
  split; [|split; [|split; [|split; [|split]]]].
  - rewrite <- HN. destruct (pc s) as [| | | |i| | | | |] eqn:Hpc; simpl in *;
      try (exists 0; split; [lia|]; apply R2; lia);
      try (eexists; split; [|apply R3; lia]; lia).
    destruct (R1 i eq_refl). eauto.
  - intros t1 d t2 Ht. split; [|by eapply O1].
    apply O2. rewrite Ht. apply in_elt.
  - intros t1 t2 Ht. by eapply O3.
  - intros t1 i t2 Ht. by eapply O4.
  - intros t1 j ctx t2 Ht. by eapply O5.
  - intros t1 t2 Ht. by eapply O6.
Qed.

(** The complete run of [demo_app] is such an execution. *)
Lemma shutdown_stage_order_witness :
  reachable demo_app demo_final /\ stage_order demo_app (trace demo_final).
Proof.
  assert (H : reachable demo_app demo_final)
    by exact (exec_reachable _ _ _ _ (reach_init demo_app) demo_exec).
  split; [exact H|]. apply (shutdown_stage_order demo_app demo_final H).
Defined.

(** C2. Forced exit.  Once the first signal has been received, at any point
    of the shutdown, barriers included: a second signal makes the process
    exit with status 1, and so does the expiry of [shutdownTimeout]; the
    exit comes without any further step of the shutdown, and nothing runs
    after it. *)
Theorem forced_exit a s :
  reachable a s -> proc s = Running -> 1 <= phase (pc s) ->
  (exists s', exec (second_signal_sched s) s = Some s' /\
              forced "二次强制退出触发" s s') /\
  (exists s', exec (deadline_sched s) s = Some s' /\
              forced "最大限度超时, 强制退出触发" s s').
Proof.
  intros Hr Hrun Hph.
  destruct (inv_watchdog _ _ Hr) as [W1 W2]. pose proof (inv_timer _ _ Hr) as W3.
  unfold timer_inv, second_signal_sched, deadline_sched, forced in *.
  destruct s as [ap p w st cg sb ls tm pr tr]. sproj. subst pr.
  split.
  - destruct p; simpl in Hph, W1; try lia;
      try (rewrite W1 by lia); destruct sb; simpl;
      (eexists; split; [reflexivity|]; simpl; rewrite <- app_assoc;
       repeat split; intros; by apply step_exited).
  - destruct p; simpl in Hph, W2, W3; try lia;
      try (rewrite W3 by lia);
      try (destruct W2 as [-> | ->]; [lia|..]); simpl;
      (eexists; split; [reflexivity|]; simpl; rewrite <- app_assoc;
       repeat split; intros; by apply step_exited).
Qed.

(** A run held at the barrier of the Stop stage by a request that never
    returns can still be forced to exit, both ways. *)
Lemma forced_exit_witness :
  (reachable stalled_app stalled /\ proc stalled = Running /\
   1 <= phase (pc stalled)) /\
  (exists s', exec (second_signal_sched stalled) stalled = Some s' /\
              forced "二次强制退出触发" stalled s') /\
  (exists s', exec (deadline_sched stalled) stalled = Some s' /\
              forced "最大限度超时, 强制退出触发" stalled s').
Proof.
  assert (H : reachable stalled_app stalled)
    by exact (exec_reachable _ _ _ _ (reach_init stalled_app) stalled_exec).
  assert (H1 : proc stalled = Running) by (vm_compute; reflexivity).
  assert (H2 : 1 <= phase (pc stalled)) by (vm_compute; lia).
  split; [exact (conj H (conj H1 H2))|].
  apply (forced_exit stalled_app stalled H H1 H2).
Defined.

(** C3. Unavailable response.  From the moment [rejectReq] has been called
    on a server, every request dispatched to its [serverMux] is answered
    with status 503 and the body the source writes, and is not passed on to
    the registered handlers. *)
Theorem rejected_server_answers_503 a s i :
  reachable a s -> In (EReject i) (trace s) ->
  exists sv, servers (app s) !! i = Some sv /\
             forall r, unavailable_response (ServeHTTP (mux sv) r).
Proof.
  intros Hr Hin. destruct (inv_rejects _ _ Hr) as (_ & _ & _ & R4).
  destruct (R4 i Hin) as (sv & Hsv & Hrej).
  exists sv. split; [done|]. intros r. by apply ServeHTTP_reject.
Qed.

(** After the Drain sleep, [admin] answers 503. *)
Lemma rejected_server_answers_503_witness :
  (reachable demo_app drained /\ In (EReject 1) (trace drained)) /\
  exists sv, servers (app drained) !! 1 = Some sv /\
             forall r, unavailable_response (ServeHTTP (mux sv) r).
Proof.
  assert (H : reachable demo_app drained)
    by exact (exec_reachable _ _ _ _ (reach_init demo_app) drained_exec).
  assert (H1 : In (EReject 1) (trace drained)) by (vm_compute; tauto).
  split; [exact (conj H H1)|].
  apply (rejected_server_answers_503 demo_app drained 1 H H1).
Defined.

(** C5, as amended.  [stop] cuts off nothing: it returns only after every
    request that was in flight has returned by itself, and it never returns
    when one of them never does, in which case no callback is called
    either. *)
Theorem stop_waits_for_requests a s :
  reachable a s -> stop_waits a (trace s).
Proof.
  intros Hr.
  destruct (inv_order _ _ Hr) as (_ & _ & _ & _ & O5 & _ & O7).
  destruct (inv_conns _ _ Hr) as [_ Hc].
  assert (Hdone : forall i k, In (EReqDone i k) (trace s) ->
     exists sv, servers a !! i = Some sv /\
                conns (srv sv) !! k = Some (ConnActive true)).
  { intros i k Hin. specialize (Hc i k Hin). unfold cell, ctab in Hc.
    rewrite list_lookup_fmap in Hc.
    destruct (servers a !! i) as [sv|]; [|done]. by exists sv. }
  assert (Hnever : forall i sv k, servers a !! i = Some sv ->
     conns (srv sv) !! k = Some (ConnActive false) ->
     forall err, ~ In (EStopRet i err) (trace s)).
  { intros i sv k Hi Hk err Hin.
    assert (Hfl : in_flight a i k) by (by exists sv, false).
    destruct (Hdone i k (stop_ret_after_requests _ _ _ _ _ Hr Hin Hfl))
      as (sv' & ? & ?). congruence. }
  split; [|split; [done|]].
  - intros t1 i err t2 Ht k Hfl. eapply (O7 i); [done| |done].
    simpl. apply Nat.eqb_refl.
  - intros i sv k Hi Hk. split; [by eapply Hnever|].
    intros j ctx Hin. apply in_split in Hin as (t1 & t2 & Ht).
    destruct (O5 _ _ _ Ht eq_refl i) as [err Herr].
    { by apply lookup_lt_Some in Hi. }
    eapply (Hnever i sv k Hi Hk err). rewrite Ht. apply in_app_iff. by left.
Qed.

(** The run held at the Stop barrier is such an execution. *)
Lemma stop_waits_for_requests_witness :
  reachable stalled_app stalled /\ stop_waits stalled_app (trace stalled).
Proof.
  assert (H : reachable stalled_app stalled)
    by exact (exec_reachable _ _ _ _ (reach_init stalled_app) stalled_exec).
  split; [exact H|]. apply (stop_waits_for_requests stalled_app stalled H).
Defined.

(** C5, as the specification states it, fails: the request that [api] is
    handling when the Drain sleep is over is never cut off. *)
Lemma stop_does_not_cut_off : ~ stop_cuts_off_requests.
Proof.
  intros H.
  destruct (H demo_app drained_sched drained 0 0 drained_exec)
    as (sched' & s' & err & He & Hret & Hnot).
  - vm_compute. tauto.
  - exists (rejectReq api), true. split; vm_compute; reflexivity.
  - apply Hnot.
    apply (stop_ret_after_requests demo_app s' 0 err 0); [|done|].
    + exact (exec_reachable _ _ _ _
               (exec_reachable _ _ _ _ (reach_init demo_app) drained_exec) He).
    + exists api, true. split; vm_compute; reflexivity.
Qed.

(** C6, as amended.  When the requests in flight finish and the callbacks
    return, every graceful run is finite and ends having completed the five
    stages; what the [stop] calls return changes neither the course of the
    run nor its log. *)
Theorem shutdown_runs_all_stages a sched s :
  requests_finish a = true -> callbacks_return a = true ->
  graceful sched = true -> exec sched (init a) = Some s ->
  runs_all_stages a sched s.
Proof.
  intros Hfin Hret Hg He.
  destruct (graceful_live a sched s (callbacks_return_no_panics _ Hret) Hg He)
    as [Hr Hl].
  split; [|split; [|split]].
  - destruct sched as [|[] rest]; try done. simpl in Hg.
    change (exec (ASignal :: rest) (init a))
      with (exec rest (set_sigbuf true (init a))) in He.
    pose proof (exec_measure _ _ _ Hg He) as Hm. simpl length.
    change (measure (set_sigbuf true (init a))) with (measure (init a)) in Hm. lia.
  - destruct (run_to_rest (measure s) s) as (sched' & s' & Hi & He' & Hst); [done|].
    assert (He2 : exec (sched ++ sched') (init a) = Some s')
      by (by rewrite exec_app, He).
    destruct (graceful_live a _ s' (callbacks_return_no_panics _ Hret)
                (graceful_app _ _ Hg Hi) He2) as [Hr' Hl'].
    pose proof (rest_is_done _ _ Hr' Hl' Hfin Hret Hst) as Hd.
    exists sched', s'. split; [done|]. split; [done|]. split; [done|].
    split; [by destruct Hl'|]. by apply done_all_stages.
  - intros Hst. pose proof (rest_is_done _ _ Hr Hl Hfin Hret Hst) as Hd.
    split; [done|]. split; [by destruct Hl|]. by apply done_all_stages.
  - intros a' Ha'.
    destruct (exec_same_but_errors a a' sched s Ha' He) as (s' & He' & Hf).
    exists s'. split; [done|].
    assert (pc (forget s') = pc (forget s)) as H1 by by rewrite Hf.
    assert (proc (forget s') = proc (forget s)) as H2 by by rewrite Hf.
    assert (trace (forget s') = trace (forget s)) as H3 by by rewrite Hf.
    simpl in *. repeat split; try done.
    rewrite <- (logs_forget (trace s')), <- (logs_forget (trace s)). by rewrite H3.
Qed.

(** The complete run of [demo_app], in which a [stop] returns an error. *)
Lemma shutdown_runs_all_stages_witness :
  (requests_finish demo_app = true /\ callbacks_return demo_app = true /\
   graceful demo_sched = true /\ exec demo_sched (init demo_app) = Some demo_final) /\
  runs_all_stages demo_app demo_sched demo_final.
Proof.
  assert (H1 : requests_finish demo_app = true) by (vm_compute; reflexivity).
  assert (H2 : callbacks_return demo_app = true) by (vm_compute; reflexivity).
  assert (H3 : graceful demo_sched = true) by (vm_compute; reflexivity).
  split; [exact (conj H1 (conj H2 (conj H3 demo_exec)))|].
  apply (shutdown_runs_all_stages demo_app demo_sched demo_final H1 H2 H3 demo_exec).
Defined.

(** C6, as the specification states it, fails: the error that [api]'s [stop]
    returns is in no log line of the complete run. *)
Lemma stop_error_is_dropped : ~ stop_errors_are_logged.
Proof.
  intros H.
  destruct (H demo_app demo_sched demo_final) as [_ Hlog];
    [vm_compute; reflexivity..|apply demo_exec
    |apply stuckb_stuck; vm_compute; reflexivity|].
  destruct (Hlog 0 "close tcp :8080: use of closed network connection")
    as (line & Hin & Hm).
  { vm_compute. tauto. }
  assert (Hall : forallb
    (fun l => negb (mentions "close tcp :8080: use of closed network connection" l))
    (logs (trace demo_final)) = true) by (vm_compute; reflexivity).
  rewrite forallb_forall in Hall. specialize (Hall line Hin).
  cbv beta in Hall. rewrite Hm in Hall. discriminate Hall.
Qed.

(** C7, as amended.  When no callback panics (and the requests in flight
    finish), a run that has come to rest has called every callback and seen
    every returning callback return, whatever the callbacks that never
    return do; and [close] is not called while one is still running. *)
Theorem callbacks_all_invoked a sched s :
  requests_finish a = true -> no_callback_panics a = true ->
  graceful sched = true -> exec sched (init a) = Some s -> stuck s ->
  callbacks_invoked_and_awaited a (trace s).
Proof.
  intros Hfin Hnp Hg He Hstuck.
  destruct (graceful_live a sched s Hnp Hg He) as [Hr Hl].
  pose proof (inv_cfg _ _ Hr) as Hcfg.
  pose proof (timeoutCtx_cfg _ _ Hcfg) as Hctx.
  destruct Hcfg as (E1 & _).
  split.
  - intros j cb Hcb.
    pose proof (inv_counts _ _ Hr) as (_ & C2 & _ & _ & _ & C6 & _ & C8 & _ & _ & C11).
    pose proof (inv_facts _ _ Hr) as (_ & _ & _ & F4 & F5 & _).
    rewrite Hctx in F4. rewrite E1 in *.
    pose proof (lookup_lt_Some _ _ _ Hcb) as Hj.
    destruct (stuck_char _ _ Hr Hl Hfin Hstuck) as [Hpc|(j0 & Hpc & Hj0 & Hall)].
    + rewrite Hpc in *. simpl in *.
      destruct (lookup_lt_is_Some_2 (cbgs s) j) as [g Hg']; [rewrite C8; lia|].
      assert (g = GFinished) as -> by (eapply pending_zero; [apply C11; lia|done]).
      split; [by apply (F4 j _ Hg')|]. intros _. apply (F5 j _ Hg'). by right.
    + apply lookup_ge_None in Hj0. rewrite E1 in Hj0. specialize (C6 _ Hpc).
      destruct (lookup_lt_is_Some_2 (cbgs s) j) as [g Hg']; [lia|].
      destruct (Hall j g Hg') as [->|(-> & cb' & Hcb' & Hb)].
      * split; [by apply (F4 j _ Hg')|]. intros _. apply (F5 j _ Hg'). by right.
      * split; [by apply (F4 j _ Hg')|]. rewrite E1, Hctx in *. congruence.
  - intros Hin j cb Hcb.
    destruct (inv_order _ _ Hr) as (_ & _ & _ & _ & _ & O6 & _).
    apply in_split in Hin as (t1 & t2 & Ht).
    pose proof (O6 _ _ _ Ht eq_refl j (lookup_lt_Some _ _ _ Hcb)) as Hret.
    destruct (inv_cbret _ _ Hr j) as (cb' & Hcb' & Hr').
    { rewrite Ht. apply in_app_iff. by left. }
    rewrite E1, Hctx in *. congruence.
Qed.

(** With a callback that never returns, the other one is called and
    returns all the same. *)
Lemma callbacks_all_invoked_witness :
  (requests_finish patient_app = true /\ no_callback_panics patient_app = true /\
   graceful patient_sched = true /\
   exec patient_sched (init patient_app) = Some patient /\ stuck patient) /\
  callbacks_invoked_and_awaited patient_app (trace patient).
Proof.
  assert (H1 : requests_finish patient_app = true) by (vm_compute; reflexivity).
  assert (H2 : no_callback_panics patient_app = true) by (vm_compute; reflexivity).
  assert (H3 : graceful patient_sched = true) by (vm_compute; reflexivity).
  assert (H4 : stuck patient) by (apply stuckb_stuck; vm_compute; reflexivity).
  split; [exact (conj H1 (conj H2 (conj H3 (conj patient_exec H4))))|].
  apply (callbacks_all_invoked patient_app patient_sched patient H1 H2 H3
           patient_exec H4).
Defined.

(** C7, as the specification states it, fails: a callback that panics takes
    the process down before the other callback is called. *)
Lemma panic_takes_the_process_down : ~ callback_failures_are_isolated.
Proof.
  intros H.
  assert (H1 : requests_finish panicky_app = true) by (vm_compute; reflexivity).
  assert (H2 : graceful panicky_sched = true) by (vm_compute; reflexivity).
  assert (H3 : stuck panicky) by (intros act _; by apply step_exited).
  assert (H4 : cbs panicky_app !! 1 = Some (fun _ : Context => CbReturns))
    by (vm_compute; reflexivity).
  destruct (H panicky_app panicky_sched panicky H1 H2 panicky_exec H3 1 _ H4 eq_refl)
    as [Hcall _].
  assert (Hn : forallb
    (fun e => match e with ECbCall 1 _ => false | _ => true end)
    (trace panicky) = true) by (vm_compute; reflexivity).
  rewrite forallb_forall in Hn. specialize (Hn _ Hcall). discriminate Hn.
Qed.

(** C8. [rejectReq] is idempotent: a second call changes nothing, on the
    server, on the registry or on the responses; and the main goroutine is
    never blocked at the call. *)
Theorem rejectReq_idempotent sv :
  rejectReq (rejectReq sv) = rejectReq sv /\
  (forall r, ServeHTTP (mux (rejectReq (rejectReq sv))) r
             = ServeHTTP (mux (rejectReq sv)) r) /\
  (forall (l : list Server) (i : nat), <[i := rejectReq (rejectReq sv)]> (<[i := rejectReq sv]> l)
               = <[i := rejectReq sv]> l) /\
  (forall s i, exists s', StartAndServe (goto (PReject i) s) = Some s').
Proof.
  repeat split.
  - intros l i. change (rejectReq (rejectReq sv)) with (rejectReq sv).
    apply list_insert_insert_eq.
  - intros s i. unfold StartAndServe, shutdown. simpl.
    destruct (servers (app s) !! i); eauto.
Qed.

(** C9. [NewApp] without options gives 30 s, 10 s and 3 s and no callback;
    the options are applied in order, each to the result of the ones before;
    [WithShutdownCallbacks] sets the callbacks and leaves the durations at
    their defaults. *)
Theorem NewApp_defaults_and_options srvs :
  NewApp srvs [] = defaults srvs /\
  (forall opts opt, NewApp srvs (opts ++ [opt]) = opt (NewApp srvs opts)) /\
  (forall cbs', NewApp srvs [WithShutdownCallbacks cbs']
     = {| servers := srvs;
          shutdownTimeout := (30 * Second)%Z;
          waitTime := (10 * Second)%Z;
          cbTimeout := (3 * Second)%Z;
          cbs := cbs' |}).
Proof.
  repeat split.
  intros opts opt. unfold NewApp. by rewrite fold_left_app.
Qed.

(** C10. [WithShutdownCallbacks] replaces the callbacks and touches nothing
    else; of several such options given to [NewApp], the last one wins. *)
Theorem WithShutdownCallbacks_replaces :
  (forall a cbs', cbs (WithShutdownCallbacks cbs' a) = cbs' /\
     servers (WithShutdownCallbacks cbs' a) = servers a /\
     shutdownTimeout (WithShutdownCallbacks cbs' a) = shutdownTimeout a /\
     waitTime (WithShutdownCallbacks cbs' a) = waitTime a /\
     cbTimeout (WithShutdownCallbacks cbs' a) = cbTimeout a) /\
  (forall srvs earlier last,
     NewApp srvs (map WithShutdownCallbacks (earlier ++ [last]))
     = NewApp srvs [WithShutdownCallbacks last]).
Proof.
  split; [done|].
  intros srvs earlier last. rewrite map_app. unfold NewApp.
  rewrite fold_left_app. cbn [fold_left map].
  apply WithShutdownCallbacks_ext; apply options_keep_config.
Qed.

(** * Further properties of the code *)

(** ** Building a server *)

Lemma register_fields pats : forall sv,
  srv (register pats sv) = srv sv /\ name (register pats sv) = name sv /\
  reject (mux (register pats sv)) = reject (mux sv) /\
  ServeMux (mux (register pats sv)) = ServeMux (mux sv) ++ pats.
Proof.
  unfold register. induction pats as [|p pats IH]; intros sv; simpl.
  - by rewrite app_nil_r.
  - destruct (IH (Handle sv p)) as (-> & -> & -> & ->). simpl.
    by rewrite <- app_assoc.
Qed.

(** X1. A server built by [NewServer] and given handlers by [Handle] has
    the name and the address it was built with, no connection yet, the
    patterns in the order of the [Handle] calls, and a mux that passes
    every request on to the registered handlers: it writes no status and no
    body of its own. *)
Theorem fresh_server_serves n addr pats :
  let sv := register pats (NewServer n addr) in
  name sv = n /\ Addr (srv sv) = addr /\ conns (srv sv) = [] /\
  ServeMux (mux sv) = pats /\
  forall r, ServeHTTP (mux sv) r = [CDelegate r] /\
            response_status (ServeHTTP (mux sv) r) = None /\
            response_body (ServeHTTP (mux sv) r) = "".
Proof.
  intros sv. destruct (register_fields pats (NewServer n addr)) as (Hs & Hn & Hr & Hp).
  subst sv. rewrite Hs, Hn, Hp. repeat split.
  all: unfold ServeHTTP; by rewrite Hr.
Qed.

(** X2. [Handle] does not bring a rejected server back: whatever handlers
    are registered after [rejectReq], the patterns are added as on any
    server, and every request is still answered with 503 and the body the
    source writes.  [rejectReq] and [Handle] commute. *)
Theorem rejected_server_stays_unavailable sv pats :
  let sv' := register pats (rejectReq sv) in
  sv' = rejectReq (register pats sv) /\
  ServeMux (mux sv') = ServeMux (mux sv) ++ pats /\
  forall r, unavailable_response (ServeHTTP (mux sv') r).
Proof.
  intros sv'. subst sv'.
  assert (H : register pats (rejectReq sv) = rejectReq (register pats sv)).
  { unfold register. revert sv. induction pats as [|p pats IH]; intros sv; [done|].
    simpl. by rewrite <- IH. }
  split; [done|].
  destruct (register_fields pats (rejectReq sv)) as (_ & _ & Hr & Hp).
  split; [done|]. intros r. by apply ServeHTTP_reject.
Qed.

(** ** Signals *)

Lemma step_quiet a act s s' :
  act <> ASignal -> step act s = Some s' -> quiet a s -> quiet a s'.
Proof.
  unfold quiet. destruct s as [ap p w st cg sb ls tm pr tr]. sproj.
  intros Hact H (-> & -> & -> & -> & -> & -> & -> & -> & Hm & Htr).
  destruct act as [| | | | |i|j|i k]; try done;
    unfold step, StartAndServe, step_listener, step_timerfunc, step_stop,
      step_cb, step_handler in H; sproj; rewrite ?lookup_nil in H; try done.
  destruct (servers ap !! i) as [sv|] eqn:Hi; [|done].
  destruct (conns (srv sv) !! k) as [[|[|]]|]; try done.
  simplify_eq. sproj. repeat split; try done.
  - rewrite <- Hm. rewrite (list_fmap_insert mux). simpl.
    apply list_insert_id. by rewrite list_lookup_fmap, Hi.
  - intros e [?|[<-|[]]]%in_app_or; eauto.
Qed.

(** X3. Without a signal nothing of the shutdown happens: in a run in which
    the OS delivers no signal the main goroutine stays at its [select], no
    server is told to reject, no goroutine of the shutdown is started, no
    timer is armed and the process keeps running, whatever the handlers
    do and however long the run is. *)
Theorem no_signal_no_shutdown a sched s :
  exec sched (init a) = Some s -> ~ In ASignal sched -> quiet a s.
Proof.
  assert (H0 : quiet a (init a)) by (by repeat split; try intros ? []).
  revert H0. generalize (init a).
  induction sched as [|act sched IH]; intros s0 H0 He Hn; simplify_eq/=; [done|].
  destruct (step act s0) as [s1|] eqn:Hs; [|done].
  apply (IH s1); [|done|tauto].
  eapply step_quiet; [|done..]. intros ->. tauto.
Qed.

(** A request of [api] returns; the program is still waiting. *)
Lemma no_signal_no_shutdown_witness :
  (exec idle_sched (init demo_app) = Some idle /\ ~ In ASignal idle_sched) /\
  quiet demo_app idle.
Proof.
  assert (H : exec idle_sched (init demo_app) = Some idle)
    by (vm_compute; reflexivity).
  assert (H1 : ~ In ASignal idle_sched)
    by (simpl; intros [?|[]]; discriminate).
  split; [exact (conj H H1)|].
  apply (no_signal_no_shutdown demo_app idle_sched idle H H1).
Defined.

Lemma exec_signals n : forall s,
  proc s = Running ->
  exec (replicate (S n) ASignal) s = Some (if sigbuf s then s else set_sigbuf true s).
Proof.
  induction n as [|n IH]; intros s Hr.
  - simpl. unfold step. by rewrite Hr.
  - change (replicate (S (S n)) ASignal) with (ASignal :: replicate (S n) ASignal).
    cbn [exec]. unfold step at 1. rewrite Hr.
    destruct (sigbuf s) eqn:Hb.
    + rewrite IH by done. by rewrite Hb.
    + by rewrite IH.
Qed.

(** X4. The signal channel has room for one signal: of any number of
    signals that arrive before the main goroutine has received the first,
    one is kept.  The main goroutine receives it and starts the goroutine
    that waits for a second signal, which finds the channel empty: a burst
    of signals starts the graceful shutdown and does not force the exit. *)
Theorem signal_burst_keeps_one a n :
  exec (replicate (S n) ASignal) (init a) = exec [ASignal] (init a) /\
  exists s, exec (replicate (S n) ASignal ++ [AMain; AMain]) (init a) = Some s /\
            pc s = PArmTimer /\ proc s = Running /\ listener s = LWaiting /\
            sigbuf s = false /\ step AListener s = None.
Proof.
  split; [by rewrite exec_signals|].
  rewrite exec_app, exec_signals by done. simpl. eexists. by repeat split.
Qed.

(** ** How the process ends *)

Lemma step_exit_inv act s s' :
  step act s = Some s' -> counts_inv s -> exit_inv s -> exit_inv s'.
Proof.
  unfold exit_inv, counts_inv, timeoutCtx.
  destruct s as [ap p w st cg sb ls tm pr tr]. sproj.
  intros H (_ & _ & _ & _ & _ & _ & _ & _ & Hwg & _) (E1 & E2 & E3).
  step_inv H; zbool; destruct E3 as [E3 E4].
  all: try match goal with
    | H : _ !! _ = Some GReturned |- _ =>
        pose proof (pending_insert _ _ _ GFinished H); simpl in *; lia
    end.
  all: let fin := (repeat match goal with
                       | |- _ /\ _ => split
                       | |- ~ _ => intros ?
                       | |- forall _, _ => intros ?
                       end;
                     split_in; simplify_eq;
                     first [ done | by eauto | exfalso; by eauto
                           | exfalso; by eapply E4
                           | rewrite ?in_app_iff; simpl; by eauto 8 ]) in
       first [ solve [fin]
             | simplify_eq; split; [solve [fin]|];
               split; [solve [fin]|]; first [ left; solve [fin] | right; solve [fin] ] ].
Qed.

Lemma inv_exit a s : reachable a s -> exit_inv s.
Proof.
  induction 1 as [|s act s' Hr IH Hs].
  - repeat split; simpl; tauto.
  - eapply step_exit_inv; eauto using inv_counts.
Qed.

(** X5. The process ends in two ways only.  The [sync.WaitGroup] counter
    is never negative, so [wg.Done()] never panics; a panic is that of a
    registered callback; every [os.Exit] is [os.Exit(1)]; a process that is
    gone has status 1 after an [os.Exit(1)], or status 2 after a panic; and
    a running process has seen neither. *)
Theorem only_callbacks_panic a s :
  reachable a s ->
  (0 <= wg s)%Z /\
  (In EPanic (trace s) ->
     exists j cb, cbs a !! j = Some cb /\ cb (timeoutCtx a) = CbPanics) /\
  (forall c, In (EExit c) (trace s) -> c = 1%Z) /\
  (forall c, proc s = Exited c ->
     (c = 1%Z /\ In (EExit 1) (trace s)) \/ (c = 2%Z /\ In EPanic (trace s))) /\
  (proc s = Running -> ~ In EPanic (trace s) /\ forall c, ~ In (EExit c) (trace s)).
Proof.
  intros Hr.
  destruct (inv_exit _ _ Hr) as (E1 & E2 & E3).
  pose proof (inv_counts _ _ Hr) as (_ & _ & _ & _ & _ & _ & _ & _ & Hwg & _).
  pose proof (inv_cfg _ _ Hr) as Hcfg.
  rewrite (timeoutCtx_cfg _ _ Hcfg) in E1. destruct Hcfg as (Hcb & _).
  rewrite Hcb in E1.
  split; [lia|]. split; [done|]. split; [done|]. split.
  - intros c Hc. rewrite Hc in E3. tauto.
  - intros Hc. by rewrite Hc in E3.
Qed.

(** The run in which the first callback panics. *)
Lemma only_callbacks_panic_witness :
  reachable panicky_app panicky /\
  (0 <= wg panicky)%Z /\
  (In EPanic (trace panicky) ->
     exists j cb, cbs panicky_app !! j = Some cb /\
                  cb (timeoutCtx panicky_app) = CbPanics) /\
  (forall c, In (EExit c) (trace panicky) -> c = 1%Z) /\
  (forall c, proc panicky = Exited c ->
     (c = 1%Z /\ In (EExit 1) (trace panicky)) \/
     (c = 2%Z /\ In EPanic (trace panicky))) /\
  (proc panicky = Running ->
     ~ In EPanic (trace panicky) /\ forall c, ~ In (EExit c) (trace panicky)).
Proof.
  assert (H : reachable panicky_app panicky)
    by exact (exec_reachable _ _ _ _ (reach_init panicky_app) panicky_exec).
  split; [exact H|]. apply (only_callbacks_panic panicky_app panicky H).
Defined.

(** ** Calls and returns *)

Lemma NoDup_snoc_In {A} (l : list A) x : NoDup l -> ~ In x l -> NoDup (l ++ [x]).
Proof.
  intros Hl Hx. apply NoDup_app. split; [done|]. split.
  - intros y Hy [->|[]%elem_of_nil]%elem_of_cons. by apply Hx, list_elem_of_In.
  - apply NoDup_singleton.
Qed.

Lemma stop_calls_app t1 t2 : stop_calls (t1 ++ t2) = stop_calls t1 ++ stop_calls t2.
Proof. apply omap_app. Qed.
Lemma stop_rets_app t1 t2 : stop_rets (t1 ++ t2) = stop_rets t1 ++ stop_rets t2.
Proof. apply omap_app. Qed.
Lemma cb_calls_app t1 t2 : cb_calls (t1 ++ t2) = cb_calls t1 ++ cb_calls t2.
Proof. apply omap_app. Qed.
Lemma cb_rets_app t1 t2 : cb_rets (t1 ++ t2) = cb_rets t1 ++ cb_rets t2.
Proof. apply omap_app. Qed.

Lemma lookup_insert_keeps {A} (P : A -> Prop) (l : list A) i k x :
  P x -> (exists g, l !! k = Some g /\ P g) ->
  exists g, <[i:=x]> l !! k = Some g /\ P g.
Proof.
  intros Hx (g & Hg & HP). destruct (decide (i = k)) as [Heq|Hne].
  - subst k. exists x. split; [|done].
    apply list_lookup_insert_eq. by eapply lookup_lt_Some.
  - exists g. by rewrite list_lookup_insert_ne.
Qed.

Lemma lookup_snoc_keeps {A} (P : A -> Prop) (l : list A) k x :
  (exists g, l !! k = Some g /\ P g) ->
  exists g, (l ++ [x]) !! k = Some g /\ P g.
Proof.
  intros (g & Hg & HP). exists g. split; [|done]. by apply lookup_app_l_Some.
Qed.

Lemma lookup_insert_other {A} (P : A -> Prop) (l : list A) i k x y :
  l !! i = Some y -> ~ P y -> (exists g, l !! k = Some g /\ P g) ->
  exists g, <[i:=x]> l !! k = Some g /\ P g.
Proof.
  intros Hy HP (g & Hg & Hg'). destruct (decide (i = k)) as [Heq|Hne].
  - subst k. congruence.
  - exists g. by rewrite list_lookup_insert_ne.
Qed.

Lemma lookup_insert_new {A} (P : A -> Prop) (l : list A) i x y :
  l !! i = Some y -> P x -> exists g, <[i:=x]> l !! i = Some g /\ P g.
Proof.
  intros Hy HP. exists x. split; [|done].
  apply list_lookup_insert_eq. by eapply lookup_lt_Some.
Qed.

Lemma once_alt calls rets gs :
  once_inv calls rets gs <->
  NoDup calls /\ (forall i, In i calls -> exists g, gs !! i = Some g /\ ran g) /\
  NoDup rets /\ (forall i, In i rets -> exists g, gs !! i = Some g /\ back g).
Proof.
  unfold once_inv, ran, back. split; intros (H1 & H2 & H3 & H4);
    (split; [done|]; split; [done|]; split; [done|]); intros i Hi;
    specialize (H4 i Hi).
  - destruct H4 as [H4|H4]; eauto.
  - destruct H4 as (g & Hg & [->| ->]); eauto.
Qed.

Ltac once_fin H2 H4 :=
  repeat match goal with
  | Hi : In _ _ |- _ =>
      first [ pose proof (H2 _ Hi) | pose proof (H4 _ Hi) ]; clear Hi
  end;
  first
    [ apply lookup_insert_keeps; [unfold ran, back; auto; done|done]
    | apply lookup_snoc_keeps; done
    | eapply lookup_insert_new; [eassumption|unfold ran, back; auto; done]
    | eapply lookup_insert_other; [eassumption|unfold ran, back; intuition congruence|done]
    | exfalso; unfold ran, back in *; destruct_and; simplify_eq; intuition congruence
    | idtac ].

Lemma step_once_stops act s s' :
  step act s = Some s' ->
  once_inv (stop_calls (trace s)) (stop_rets (trace s)) (stops s) ->
  once_inv (stop_calls (trace s')) (stop_rets (trace s')) (stops s').
Proof.
  rewrite !once_alt. unfold stop_log.
  destruct s as [ap p w st cg sb ls tm pr tr]. sproj.
  intros H (H1 & H2 & H3 & H4).
  step_inv H; rewrite ?stop_calls_app, ?stop_rets_app; simpl; rewrite ?app_nil_r;
    try done.
  all: repeat split; try done;
       try (apply NoDup_snoc_In; [done|]; intros Hin);
       try (intros i' Hi'); split_in; once_fin H2 H4.
Qed.

Lemma step_once_cbs act s s' :
  step act s = Some s' ->
  once_inv (cb_calls (trace s)) (cb_rets (trace s)) (cbgs s) ->
  once_inv (cb_calls (trace s')) (cb_rets (trace s')) (cbgs s').
Proof.
  rewrite !once_alt. unfold stop_log.
  destruct s as [ap p w st cg sb ls tm pr tr]. sproj.
  intros H (H1 & H2 & H3 & H4).
  step_inv H; rewrite ?cb_calls_app, ?cb_rets_app; simpl; rewrite ?app_nil_r;
    try done.
  all: repeat split; try done;
       try (apply NoDup_snoc_In; [done|]; intros Hin);
       try (intros i' Hi'); split_in; once_fin H2 H4.
Qed.

Lemma step_stages_once act s s' :
  step act s = Some s' -> stages_once_inv s -> stages_once_inv s'.
Proof.
  unfold stages_once_inv, stop_log.
  destruct s as [ap p w st cg sb ls tm pr tr]. sproj.
  intros H (H1 & H2 & H3 & H4 & H5 & H6 & H7 & H8).
  step_inv H; rewrite ?filter_app; simpl; rewrite ?app_nil_r, ?length_app; simpl;
    try done.
  all: repeat match goal with
       | H : ?a <= ?b -> _ |- _ =>
           first [ specialize (H ltac:(lia)) | clear H ]
       end.
  all: repeat match goal with H : filter _ _ = [] |- _ => rewrite H in * end.
  all: repeat split; intros; simpl; try lia; try done.
Qed.

Lemma step_pairs act s s' :
  step act s = Some s' -> pairs_inv s -> pairs_inv s'.
Proof.
  unfold pairs_inv, stop_log, timeoutCtx.
  destruct s as [ap p w st cg sb ls tm pr tr]. sproj.
  intros H (H1 & H2 & H3 & H4 & H5 & H6 & H7 & H8 & H9).
  step_inv H; use_guards; try done.
  all: repeat split; try assumption; try discriminate;
    try match goal with |- forall i : nat, guarded _ _ _ => intros i0 end;
    repeat first [ apply guarded_snoc2 | apply guarded_snoc ];
    try assumption; cbn; intros; try discriminate; split_in; split_lookup;
    rewrite ?length_app, ?length_insert; simpl.
  all: try lia.
  all: try apply H5; try apply H6.
  all: try (match goal with H : Nat.eqb _ _ = true |- _ => apply Nat.eqb_eq in H; subst end).
  all: try (rewrite ?in_app_iff; simpl; eauto 6; fail).
  all: try (match goal with Hin : In (ECbCall _ _) _ |- _ =>
              apply H8 in Hin as [? ?] end; first [done | lia]).
  all: try (match goal with Hin : In (EStopCall _) _ |- _ => apply H9 in Hin end; lia).
  all: lookup_bounds; try lia.
Qed.

Lemma inv_once a s :
  reachable a s ->
  once_inv (stop_calls (trace s)) (stop_rets (trace s)) (stops s) /\
  once_inv (cb_calls (trace s)) (cb_rets (trace s)) (cbgs s) /\
  stages_once_inv s.
Proof.
  induction 1 as [|s act s' Hr (IH1 & IH2 & IH3) Hs].
  - unfold once_inv, stages_once_inv; simpl.
    repeat split; intros; try apply NoDup_nil_2; try lia; try done.
  - split; [by eapply step_once_stops|].
    split; [by eapply step_once_cbs|by eapply step_stages_once].
Qed.

Lemma inv_pairs a s : reachable a s -> pairs_inv s.
Proof.
  induction 1 as [|s act s' Hr IH Hs].
  - unfold pairs_inv; simpl.
    repeat split; intros; try apply guarded_nil; try lia; try done.
  - by eapply step_pairs.
Qed.

(** X6. Nothing of the shutdown is done twice: [rejectReq] is called at
    most once on each server, [stop] at most once on each server and it
    returns at most once, each callback is called at most once and returns
    at most once, and the Drain sleep and [close] begin and end at most
    once, whatever signals arrive during the shutdown. *)
Theorem each_call_happens_once a s :
  reachable a s ->
  NoDup (rejects (trace s)) /\
  NoDup (stop_calls (trace s)) /\ NoDup (stop_rets (trace s)) /\
  NoDup (cb_calls (trace s)) /\ NoDup (cb_rets (trace s)) /\
  length (filter is_drain_begin (trace s)) <= 1 /\
  length (filter is_drain_end (trace s)) <= 1 /\
  length (filter is_close_begin (trace s)) <= 1 /\
  length (filter is_close_end (trace s)) <= 1.
Proof.
  intros Hr.
  destruct (inv_once _ _ Hr) as ((S1 & _ & S2 & _) & (C1 & _ & C2 & _) & St).
  destruct St as (_ & D1 & _ & D2 & _ & D3 & _ & D4).
  split; [|done].
  destruct (inv_rejects _ _ Hr) as (R1 & R2 & R3 & _).
  destruct (decide (phase (pc s) < 4)) as [Hlt|Hge].
  { rewrite (R2 Hlt). apply NoDup_nil_2. }
  destruct (decide (4 < phase (pc s))) as [Hgt|Hle].
  { rewrite (R3 ltac:(lia)). apply NoDup_seq. }
  destruct (pc s) as [| | | |i| | | | |] eqn:Hpc; simpl in Hge, Hle; try lia.
  destruct (R1 i eq_refl) as [-> _]. apply NoDup_seq.
Qed.

Lemma each_call_happens_once_witness :
  reachable demo_app demo_final /\
  NoDup (rejects (trace demo_final)) /\
  NoDup (stop_calls (trace demo_final)) /\ NoDup (stop_rets (trace demo_final)) /\
  NoDup (cb_calls (trace demo_final)) /\ NoDup (cb_rets (trace demo_final)) /\
  length (filter is_drain_begin (trace demo_final)) <= 1 /\
  length (filter is_drain_end (trace demo_final)) <= 1 /\
  length (filter is_close_begin (trace demo_final)) <= 1 /\
  length (filter is_close_end (trace demo_final)) <= 1.
Proof.
  assert (H : reachable demo_app demo_final)
    by exact (exec_reachable _ _ _ _ (reach_init demo_app) demo_exec).
  split; [exact H|]. apply (each_call_happens_once demo_app demo_final H).
Defined.



(** X8. The goroutines call what is registered: [stop] is called on
    servers of the registry only, and a callback that is called is one of
    [app.cbs] and gets [context.WithTimeout(context.Background(),
    app.cbTimeout)], never a context without a deadline. *)
Theorem calls_come_from_the_registry a s :
  reachable a s ->
  (forall i, In (EStopCall i) (trace s) -> i < length (servers a)) /\
  (forall j ctx, In (ECbCall j ctx) (trace s) ->
     ctx = WithTimeout Background (cbTimeout a) /\ j < length (cbs a)).
Proof.
  intros Hr.
  destruct (inv_pairs _ _ Hr) as (_ & _ & _ & _ & _ & _ & _ & P1 & P2).
  destruct (inv_counts _ _ Hr) as (N1 & N2 & _).
  pose proof (inv_cfg _ _ Hr) as Hcfg.
  rewrite (timeoutCtx_cfg _ _ Hcfg) in P1.
  destruct Hcfg as (Hcb & _ & _ & _ & HN). rewrite Hcb in N2. rewrite HN in N1.
  split.
  - intros i Hi. specialize (P2 i Hi). lia.
  - intros j ctx Hj. destruct (P1 j ctx Hj) as [-> Hlt]. split; [done|lia].
Qed.

Lemma calls_come_from_the_registry_witness :
  reachable demo_app demo_final /\
  (forall i, In (EStopCall i) (trace demo_final) -> i < length (servers demo_app)) /\
  (forall j ctx, In (ECbCall j ctx) (trace demo_final) ->
     ctx = WithTimeout Background (cbTimeout demo_app) /\ j < length (cbs demo_app)).
Proof.
  assert (H : reachable demo_app demo_final)
    by exact (exec_reachable _ _ _ _ (reach_init demo_app) demo_exec).
  split; [exact H|]. apply (calls_come_from_the_registry demo_app demo_final H).
Defined.

(** ** The servers during the shutdown *)

Lemma kept_refl i sv : kept i sv sv [].
Proof. split; [by repeat split|by left]. Qed.

Lemma kept_more i sv0 sv t es : kept i sv0 sv t -> kept i sv0 sv (t ++ es).
Proof.
  intros [H1 [H2|[H2 H3]]]; (split; [done|]); [by left|right].
  split; [done|]. apply in_app_iff. by left.
Qed.

Lemma kept_rejectReq i sv0 sv t es :
  kept i sv0 sv t -> kept i sv0 (rejectReq sv) (t ++ EReject i :: es).
Proof.
  intros [H1 _]. split; [exact H1|]. right. split; [done|].
  apply in_app_iff. right. by left.
Qed.

Lemma kept_finish_conn i k sv0 sv t es :
  kept i sv0 sv t -> kept i sv0 (finish_conn k sv) (t ++ es).
Proof.
  intros H. apply (kept_more _ _ _ _ es) in H.
  destruct H as [(H1 & H2 & H3 & H4 & H5) H6]. split; [|exact H6].
  repeat split; simpl; try done. by rewrite length_insert.
Qed.

Lemma lookup_insert_ex {A} (P : A -> Prop) (l : list A) i k x y z :
  l !! i = Some y -> l !! k = Some z ->
  (i = k -> P x) -> (i <> k -> P z) ->
  exists g, <[i:=x]> l !! k = Some g /\ P g.
Proof.
  intros Hy Hz H1 H2. destruct (decide (i = k)) as [Heq|Hne].
  - subst k. exists x. split; [|auto].
    apply list_lookup_insert_eq. by eapply lookup_lt_Some.
  - exists z. rewrite list_lookup_insert_ne by done. auto.
Qed.

Lemma step_frame a act s s' :
  step act s = Some s' -> cfg_inv a s -> frame_inv a s -> frame_inv a s'.
Proof.
  unfold frame_inv, stop_log, stop, Shutdown_poll.
  intros H (_ & _ & _ & _ & HN).
  destruct s as [ap p w st cg sb ls tm pr tr]. sproj.
  intros (H1 & H2).
  step_inv H; try done.
  all: split; [intros i0 sv0 Hi0; destruct (H1 _ _ Hi0) as (sv & Hsv & Hk)
              |intros i0 err0 Hin; split_in; eauto].
  all: rewrite <- ?app_assoc; simpl.
  all: try (exists sv; split; [done|]; by apply kept_more).
  - eapply lookup_insert_ex; [done..| |].
    + intros ->. simplify_eq. by apply kept_rejectReq.
    + intros _. by apply kept_more.
  - match goal with
    | H : servers ap !! i0 = Some ?sv, Hst : stop ?sv = Some _ |- _ =>
        unfold stop, Shutdown_poll in Hst;
        destruct (closeIdleConns (srv sv)); [|done]; simplify_eq;
        destruct (lookup_lt_is_Some_2 (servers a) i0) as [sv0 Hsv0];
          [rewrite <- HN; by eapply lookup_lt_Some|];
        destruct (H1 _ _ Hsv0) as (sv' & Hsv' & (_ & _ & Hl & _) & _);
        exists sv0; split; [done|]; congruence
    end.
  - eapply lookup_insert_ex; [done..| |].
    + intros ->. simplify_eq. by apply kept_finish_conn.
    + intros _. by apply kept_more.
Qed.

Lemma inv_frame a s : reachable a s -> frame_inv a s.
Proof.
  induction 1 as [|s act s' Hr IH Hs].
  - split; [|intros ? ? []]. intros i sv0 Hi. exists sv0. split; [done|].
    apply kept_refl.
  - eapply step_frame; eauto using inv_cfg.
Qed.

(** X9. The shutdown leaves the registry as it is: the same number of
    servers, each in its place with its name, its address, the patterns
    registered on its mux and as many connections; the only flag that
    changes is one that [rejectReq] has set, and no flag is ever
    cleared. *)
Theorem shutdown_keeps_the_servers a s :
  reachable a s ->
  length (servers (app s)) = length (servers a) /\
  forall i sv0, servers a !! i = Some sv0 ->
    exists sv, servers (app s) !! i = Some sv /\ kept i sv0 sv (trace s).
Proof.
  intros Hr. destruct (inv_cfg _ _ Hr) as (_ & _ & _ & _ & HN).
  destruct (inv_frame _ _ Hr) as [H1 _]. by split.
Qed.

Lemma shutdown_keeps_the_servers_witness :
  reachable demo_app demo_final /\
  length (servers (app demo_final)) = length (servers demo_app) /\
  forall i sv0, servers demo_app !! i = Some sv0 ->
    exists sv, servers (app demo_final) !! i = Some sv /\
               kept i sv0 sv (trace demo_final).
Proof.
  assert (H : reachable demo_app demo_final)
    by exact (exec_reachable _ _ _ _ (reach_init demo_app) demo_exec).
  split; [exact H|]. apply (shutdown_keeps_the_servers demo_app demo_final H).
Defined.

(** X10. What [stop] returns is the result of closing the listener of the
    server it was called on; as [Shutdown] is given
    [context.Background()], it is never the error of a context. *)
Theorem stop_returns_listener_error a s i err :
  reachable a s -> In (EStopRet i err) (trace s) ->
  exists sv0, servers a !! i = Some sv0 /\ err = lnerr (srv sv0).
Proof.
  intros Hr Hin. destruct (inv_frame _ _ Hr) as [_ H2]. by apply H2.
Qed.

Lemma stop_returns_listener_error_witness :
  (reachable demo_app demo_final /\
   In (EStopRet 0 (lnerr (srv api))) (trace demo_final)) /\
  exists sv0, servers demo_app !! 0 = Some sv0 /\ lnerr (srv api) = lnerr (srv sv0).
Proof.
  assert (H : reachable demo_app demo_final)
    by exact (exec_reachable _ _ _ _ (reach_init demo_app) demo_exec).
  assert (H1 : In (EStopRet 0 (lnerr (srv api))) (trace demo_final))
    by (vm_compute; tauto).
  split; [exact (conj H H1)|].
  apply (stop_returns_listener_error demo_app demo_final 0 _ H H1).
Defined.

Lemma current_name a s i sv :
  cfg_inv a s -> frame_inv a s -> servers (app s) !! i = Some sv ->
  exists sv0, servers a !! i = Some sv0 /\ name sv = name sv0.
Proof.
  intros (_ & _ & _ & _ & HN) [H1 _] Hi.
  destruct (lookup_lt_is_Some_2 (servers a) i) as [sv0 Hsv0].
  { rewrite <- HN. by eapply lookup_lt_Some. }
  destruct (H1 _ _ Hsv0) as (sv' & Hsv' & (Hn & _) & _).
  exists sv0. split; [done|]. congruence.
Qed.

Lemma step_logs a act s s' :
  step act s = Some s' -> cfg_inv a s -> frame_inv a s ->
  logs_inv a s -> logs_inv a s'.
Proof.
  intros H Hcfg Hfr. pose proof (current_name a s) as Hname.
  specialize (fun i sv => Hname i sv Hcfg Hfr). clear Hcfg Hfr.
  unfold logs_inv, reject_log, stop_log in *.
  destruct s as [ap p w st cg sb ls tm pr tr]. sproj.
  intros (H1 & H2).
  step_inv H; try done.
  all: split; intros i0 Hin; split_in;
    try (edestruct H1 as (sv0 & ? & ?); [eassumption|]; exists sv0; split; [done|]; solve_in);
    try (edestruct H2 as (sv0 & ? & ?); [eassumption|]; exists sv0; split; [done|]; solve_in).
  all: edestruct Hname as (sv0 & Hsv0 & Hn); [eassumption|]; exists sv0;
    (split; [done|]); rewrite <- Hn; solve_in.
Qed.

Lemma inv_logs a s : reachable a s -> logs_inv a s.
Proof.
  induction 1 as [|s act s' Hr IH Hs].
  - split; intros ? [].
  - eapply step_logs; eauto using inv_cfg, inv_frame.
Qed.

(** X11. The log lines name the right server: when [rejectReq] has been
    called on a server the log holds the line of the Reject loop with that
    server's name, and when [stop] has been called on a server the log
    holds the line of [stop] with that server's name. *)
Theorem log_lines_name_the_server a s :
  reachable a s ->
  (forall i, In (EReject i) (trace s) ->
     exists sv0, servers a !! i = Some sv0 /\ In (reject_log sv0) (trace s)) /\
  (forall i, In (EStopCall i) (trace s) ->
     exists sv0, servers a !! i = Some sv0 /\ In (stop_log sv0) (trace s)).
Proof. apply inv_logs. Qed.

Lemma log_lines_name_the_server_witness :
  reachable demo_app demo_final /\
  (forall i, In (EReject i) (trace demo_final) ->
     exists sv0, servers demo_app !! i = Some sv0 /\
                 In (reject_log sv0) (trace demo_final)) /\
  (forall i, In (EStopCall i) (trace demo_final) ->
     exists sv0, servers demo_app !! i = Some sv0 /\
                 In (stop_log sv0) (trace demo_final)).
Proof.
  assert (H : reachable demo_app demo_final)
    by exact (exec_reachable _ _ _ _ (reach_init demo_app) demo_exec).
  split; [exact H|]. apply (log_lines_name_the_server demo_app demo_final H).
Defined.

(** ** Before the first signal is received *)

Lemma step_early act s s' : step act s = Some s' -> early_inv s -> early_inv s'.
Proof.
  unfold early_inv.
  destruct s as [ap p w st cg sb ls tm pr tr]. sproj.
  intros H (H1 & H2 & H3 & H4 & H5).
  step_inv H; try done.
  all: lookup_bounds; repeat split; intros;
    rewrite ?length_app, ?length_insert in *; simpl in *;
    repeat match goal with
    | H : ?P -> _ <= _ |- _ =>
        first [ specialize (H ltac:(first [done | lia | congruence])) | clear H ]
    end; try lia; try done.
Qed.

Lemma inv_early a s : reachable a s -> early_inv s.
Proof.
  induction 1 as [|s act s' Hr IH Hs].
  - unfold early_inv; simpl. repeat split; intros; try lia; done.
  - by eapply step_early.
Qed.

(** X12. Nothing can end the process before the first signal has been
    received: as long as the main goroutine has not passed the [go]
    statement that follows the receipt, the process runs, there is no
    goroutine waiting for a second signal and no timer, and no step of any
    thread ends the process.  The hard deadline is counted from the first
    signal, not from the start of the program. *)
Theorem no_exit_before_first_signal a s :
  reachable a s -> phase (pc s) <= 1 ->
  proc s = Running /\ listener s = LNone /\ timer s = TNone /\
  forall act s', step act s = Some s' -> proc s' = Running.
Proof.
  intros Hr Hph. destruct (inv_early _ _ Hr) as (E1 & E2 & E3 & E4 & E5).
  assert (Hp : proc s = Running).
  { destruct (proc s); [done|]. exfalso. assert (2 <= phase (pc s)) by by apply E5. lia. }
  assert (Hl : listener s = LNone).
  { destruct (listener s); [done|]. specialize (E1 eq_refl). lia. }
  assert (Ht : timer s = TNone).
  { destruct (timer s); [done|..]; specialize (E2 ltac:(done)); lia. }
  assert (Hs : stops s = []).
  { destruct (stops s); [done|]. simpl in E3. specialize (E3 ltac:(lia)). lia. }
  assert (Hc : cbgs s = []).
  { destruct (cbgs s); [done|]. simpl in E4. specialize (E4 ltac:(lia)). lia. }
  repeat split; try done.
  clear E1 E2 E3 E4 E5 Hr.
  destruct s as [ap p w st cg sb ls tm pr tr]. sproj. subst.
  intros act s' H. step_inv H; try done; simpl in *; lia.
Qed.

(** The state in which the first signal has just been received. *)
Lemma no_exit_before_first_signal_witness :
  (reachable demo_app received /\ phase (pc received) <= 1) /\
  proc received = Running /\ listener received = LNone /\
  timer received = TNone /\
  forall act s', step act received = Some s' -> proc s' = Running.
Proof.
  assert (He : exec received_sched (init demo_app) = Some received)
    by (vm_compute; reflexivity).
  assert (H : reachable demo_app received)
    by exact (exec_reachable _ _ _ _ (reach_init demo_app) He).
  assert (H1 : phase (pc received) <= 1) by (vm_compute; lia).
  split; [exact (conj H H1)|].
  apply (no_exit_before_first_signal demo_app received H H1).
Defined.
